(** * Todo list application: data access layer, filtering and pagination

    A shallow embedding of [src/services/api.js] (the [TodoService] class)
    and of the list logic of [src/components/TodoList.jsx]: the fetch-all
    query, the search and status filters and the pagination; and of the
    payload with which the detail view and the list items toggle a task.

    Conventions of the embedding.
    - A JavaScript object is a finite map from property names to values
      ([gmap string jsval]); a missing property reads as [undefined], which is
      [None] here.  Numbers are the integers ([Z]).
    - A string is held as the bytes of its UTF-8 encoding, so that every
      string without a lone surrogate has one form.  [length] counts UTF-16
      code units and [trim] strips the white space of ECMAScript (WhiteSpace
      and LineTerminator), both read off the bytes.  [toLowerCase] follows
      the case mappings of the Unicode version the engine ships: it is a
      parameter ([Runtime]), as the other things outside the repository are.
    - [localforage] is a key-value store with string keys; every one of its
      operations rejects when the storage backend is unavailable.
    - The remote REST API is not part of the repository: it is a parameter
      ([RemoteApi]), a state with one handler per HTTP request the service
      sends.  A handler answering [None] stands for any rejected request
      (network error, timeout, non-2xx status).
    - An [async] method is a function from the world (server, local store,
      clock) to an outcome and a new world; an outcome is a value or a thrown
      [Error] with its message. *)

From stdpp Require Import gmap strings list list_numbers fin_maps pretty.
From Stdlib Require Import ZArith Lia.
From Stdlib Require Ascii String.
Import Stdlib.Strings.Ascii (ascii(..)).
Import (notations) Stdlib.Strings.Ascii.

Set Default Proof Using "Type".

(** ** JavaScript values and objects *)

Inductive jsval : Type :=
  | JNull
  | JBool (b : bool)
  | JNum (z : Z)
  | JStr (s : string).

Global Instance jsval_eq_dec : EqDecision jsval.
Proof. solve_decision. Defined.

Abbreviation jsobj := (gmap string jsval).

(** [ToBoolean] of a property read: [undefined], [null], [false], [0] and the
    empty string are falsy. *)
Definition truthy (v : option jsval) : bool :=
  match v with
  | None | Some JNull => false
  | Some (JBool b) => b
  | Some (JNum z) => negb (z =? 0)%Z
  | Some (JStr s) => negb (String.eqb s "")
  end.

(** Object spread [{ ...a, ...b }]: the properties of [b] win. *)
Definition spread (a b : jsobj) : jsobj := b ∪ a.

(** ** Outcomes: a value or a thrown error *)

Inductive result (A : Type) : Type :=
  | Ok (a : A)
  | Throw (msg : string).
Global Arguments Ok {A} a.
Global Arguments Throw {A} msg.

Global Instance result_ret : MRet result := @Ok.
Global Instance result_bind : MBind result := λ A B f r,
  match r with
  | Ok a => f a
  | Throw msg => Throw msg
  end.

(** ** Strings *)

(** The UTF-8 encoding of a code point. *)
Definition byte (n : N) : ascii := Ascii.ascii_of_N n.

Definition utf8 (cp : N) : string :=
  (if cp <? 0x80 then String (byte cp) ""
   else if cp <? 0x800 then
     String (byte (0xC0 + cp / 0x40)) (String (byte (0x80 + cp mod 0x40)) "")
   else if cp <? 0x10000 then
     String (byte (0xE0 + cp / 0x1000))
       (String (byte (0x80 + cp / 0x40 mod 0x40))
          (String (byte (0x80 + cp mod 0x40)) ""))
   else
     String (byte (0xF0 + cp / 0x40000))
       (String (byte (0x80 + cp / 0x1000 mod 0x40))
          (String (byte (0x80 + cp / 0x40 mod 0x40))
             (String (byte (0x80 + cp mod 0x40)) ""))))%N.

(** [string.length]: the number of UTF-16 code units.  A character takes one
    unit, or two when it lies beyond [U+FFFF], which is when its encoding
    starts with a byte from [0xF0]; the bytes [0x80] to [0xBF] continue a
    character. *)
Definition codeUnits (c : ascii) : nat :=
  let n := Ascii.N_of_ascii c in
  if (n <? 0x80)%N then 1
  else if (n <? 0xC0)%N then 0
  else if (n <? 0xF0)%N then 1
  else 2.

Fixpoint strLength (s : string) : nat :=
  match s with
  | EmptyString => 0
  | String c r => codeUnits c + strLength r
  end.

(** [String.prototype.toLowerCase]: the case mappings are those of the
    Unicode tables of the engine, not of the repository.  What every version
    of them agrees on is the text written with the characters of ASCII:
    there [A] to [Z] go to [a] to [z] and nothing else changes. *)
Definition lower_char (c : ascii) : ascii :=
  let n := Ascii.nat_of_ascii c in
  if (65 <=? n)%nat && (n <=? 90)%nat then Ascii.ascii_of_nat (n + 32) else c.

Fixpoint asciiLowerCase (s : string) : string :=
  match s with
  | EmptyString => EmptyString
  | String c r => String (lower_char c) (asciiLowerCase r)
  end.

Fixpoint isAscii (s : string) : bool :=
  match s with
  | EmptyString => true
  | String c r => (Ascii.N_of_ascii c <? 0x80)%N && isAscii r
  end.

Class Runtime : Type := {
  toLowerCase : string → string;
  toLowerCase_ascii (s : string) :
    isAscii s = true → toLowerCase s = asciiLowerCase s;
}.

Fixpoint startsWith (s p : string) {struct p} : bool :=
  match p, s with
  | EmptyString, _ => true
  | String _ _, EmptyString => false
  | String a p', String b s' => if Ascii.eqb a b then startsWith s' p' else false
  end.

Fixpoint includes (s q : string) : bool :=
  startsWith s q ||
  match s with
  | EmptyString => false
  | String _ s' => includes s' q
  end.

(** The characters [trim] and [parseInt] strip: WhiteSpace ([U+0009],
    [U+000B], [U+000C], [U+FEFF] and the space separators [U+0020], [U+00A0],
    [U+1680], [U+2000] to [U+200A], [U+202F], [U+205F], [U+3000]) and
    LineTerminator ([U+000A], [U+000D], [U+2028], [U+2029]). *)
Definition whiteSpaceCodes : list N :=
  [0x9; 0xA; 0xB; 0xC; 0xD; 0x20; 0xA0; 0x1680;
   0x2000; 0x2001; 0x2002; 0x2003; 0x2004; 0x2005; 0x2006; 0x2007; 0x2008;
   0x2009; 0x200A; 0x2028; 0x2029; 0x202F; 0x205F; 0x3000; 0xFEFF]%N.

Definition whiteSpace : list string := utf8 <$> whiteSpaceCodes.

(** [s] without its prefix [p], when it has that prefix. *)
Fixpoint dropPrefix (p s : string) {struct p} : option string :=
  match p, s with
  | EmptyString, _ => Some s
  | String _ _, EmptyString => None
  | String a p', String b s' => if Ascii.eqb a b then dropPrefix p' s' else None
  end.

(** [s] without the first of the strings [ws] it begins with. *)
Fixpoint stripOne (ws : list string) (s : string) : option string :=
  match ws with
  | [] => None
  | w :: ws' =>
      match dropPrefix w s with
      | Some r => Some r
      | None => stripOne ws' s
      end
  end.

(** Strips as long as one of [ws] is at the start; a step takes a byte at
    least, so the length of the string is fuel enough. *)
Fixpoint strip (ws : list string) (fuel : nat) (s : string) : string :=
  match fuel with
  | O => s
  | S fuel' =>
      match stripOne ws s with
      | Some r => strip ws fuel' r
      | None => s
      end
  end.

Definition trimStart (s : string) : string :=
  strip whiteSpace (String.length s) s.

Definition trimEnd (s : string) : string :=
  String.rev (strip (String.rev <$> whiteSpace) (String.length s) (String.rev s)).

Definition trim (s : string) : string := trimEnd (trimStart s).

(** A string used as a condition: only the empty string is falsy. *)
Definition nonempty (s : string) : bool := negb (String.eqb s "").

(** The text of a value in a template literal [`${v}`]. *)
Definition templateText (v : option jsval) : string :=
  match v with
  | None => "undefined"
  | Some JNull => "null"
  | Some (JBool true) => "true"
  | Some (JBool false) => "false"
  | Some (JNum z) => pretty z
  | Some (JStr s) => s
  end.

(** [parseInt(string)] without a radix; [None] is [NaN].  Leading white
    space is skipped, then a sign, then [0x] or [0X] selects radix 16 over
    radix 10; the digits that follow are read up to the first character that
    is not one, and there must be at least one. *)
Definition digitOf (c : ascii) : option Z :=
  let n := Z.of_nat (Ascii.nat_of_ascii c) in
  if (48 <=? n)%Z && (n <=? 57)%Z then Some (n - 48)%Z
  else if (97 <=? n)%Z && (n <=? 122)%Z then Some (n - 87)%Z
  else if (65 <=? n)%Z && (n <=? 90)%Z then Some (n - 55)%Z
  else None.

Fixpoint parseDigits (radix : Z) (s : string) (acc : option Z) : option Z :=
  match s with
  | EmptyString => acc
  | String c r =>
      match digitOf c with
      | Some d =>
          if (d <? radix)%Z
          then parseDigits radix r (Some (default 0 acc * radix + d)%Z)
          else acc
      | None => acc
      end
  end.

Definition parseInt (s : string) : option Z :=
  let s := trimStart s in
  let '(sign, s) :=
    match s with
    | String "-"%char r => ((-1)%Z, r)
    | String "+"%char r => (1%Z, r)
    | _ => (1%Z, s)
    end in
  let '(radix, s) :=
    match s with
    | String "0"%char (String "x"%char r)
    | String "0"%char (String "X"%char r) => (16%Z, r)
    | _ => (10%Z, s)
    end in
  (λ n, sign * n)%Z <$> parseDigits radix s None.

(** ** Arrays *)

(** [Array.prototype.slice(start, end)] with integer arguments: a negative
    index counts from the end, both are clamped to the length. *)
Definition slice {A : Type} (start stop : Z) (l : list A) : list A :=
  let len := Z.of_nat (length l) in
  let k := if (start <? 0)%Z then Z.max (len + start) 0 else Z.min start len in
  let final := if (stop <? 0)%Z then Z.max (len + stop) 0 else Z.min stop len in
  take (Z.to_nat (Z.max (final - k) 0)) (drop (Z.to_nat k) l).

(** [Array.prototype.filter] with a callback that may throw: the first
    exception aborts the traversal. *)
Fixpoint filterE {A : Type} (p : A → result bool) (l : list A) : result (list A) :=
  match l with
  | [] => Ok []
  | x :: r =>
      b ← p x;
      r' ← filterE p r;
      Ok (if b : bool then x :: r' else r')
  end.

(** [todo.title.toLowerCase().includes(query.toLowerCase())], the callback of
    both search filters; reading [toLowerCase] off anything but a string is a
    [TypeError]. *)
Definition titleIncludes {J : Runtime} (query : string) (todo : jsobj)
    : result bool :=
  match todo !! "title" with
  | Some (JStr s) => Ok (includes (toLowerCase s) (toLowerCase query))
  | _ => Throw "TypeError"
  end.

(** ** The remote REST API

    One handler per request of the [axios] instance; [None] is a rejected
    request.  The two reads do not change the server. *)

Record RemoteApi : Type := {
  server : Type;
  GET_todos : server → option (list jsobj);
  GET_todo : Z → server → option jsobj;
  POST_todos : jsobj → server → option jsobj * server;
  PUT_todo : Z → jsobj → server → option jsobj * server;
  DELETE_todo : Z → server → option unit * server;
}.

(** ** The local store ([localforage]) *)

Record LocalForage : Type := {
  items : gmap string jsobj;
  available : bool;
}.

(** The key template [`todo-${id}`]: the identifier in decimal, as JavaScript
    prints an integer below [10^21] in absolute value. *)
Definition todoKey (id : Z) : string := "todo-" +:+ pretty id.

(** ** The service ([src/services/api.js]) *)

Module TodoService.
Section WithRemote.

Context {R : RemoteApi} {J : Runtime}.

Record World : Type := {
  remote : server R;
  storage : LocalForage;
  clock : Z;
}.

Definition Async (A : Type) : Type := World → result A * World.

Definition ret {A : Type} (a : A) : Async A := λ w, (Ok a, w).
Definition throw {A : Type} (msg : string) : Async A := λ w, (Throw msg, w).
Definition bind {A B : Type} (m : Async A) (k : A → Async B) : Async B := λ w,
  match m w with
  | (Ok a, w') => k a w'
  | (Throw msg, w') => (Throw msg, w')
  end.
(** [try { m } catch (error) { handler }] *)
Definition try_catch {A : Type} (m : Async A) (handler : string → Async A) : Async A :=
  λ w,
  match m w with
  | (Ok a, w') => (Ok a, w')
  | (Throw msg, w') => handler msg w'
  end.
Definition lift {A : Type} (r : result A) : Async A := λ w, (r, w).

Local Notation "'let!' x ':=' m 'in' k" := (bind m (λ x, k))
  (at level 10, x name, m at level 100, k at level 200).

(** *** Requests *)

Definition with_remote (s : server R) (w : World) : World :=
  {| remote := s; storage := storage w; clock := clock w |}.
Definition with_items (m : gmap string jsobj) (w : World) : World :=
  {| remote := remote w;
     storage := {| items := m; available := available (storage w) |};
     clock := clock w |}.

Definition respond {A : Type} (r : option A) (w : World) : result A * World :=
  match r with
  | Some a => (Ok a, w)
  | None => (Throw "Request failed", w)
  end.

Definition api_get_todos : Async (list jsobj) := λ w,
  respond (GET_todos R (remote w)) w.
Definition api_get_todo (id : Z) : Async jsobj := λ w,
  respond (GET_todo R id (remote w)) w.
Definition api_post (body : jsobj) : Async jsobj := λ w,
  let '(r, s) := POST_todos R body (remote w) in respond r (with_remote s w).
Definition api_put (id : Z) (body : jsobj) : Async jsobj := λ w,
  let '(r, s) := PUT_todo R id body (remote w) in respond r (with_remote s w).
Definition api_delete (id : Z) : Async unit := λ w,
  let '(r, s) := DELETE_todo R id (remote w) in respond r (with_remote s w).

(** *** [localforage] calls *)

Definition unavailable {A : Type} : Async A := throw "No available storage method found.".

Definition getItem (key : string) : Async (option jsobj) := λ w,
  if available (storage w) then (Ok (items (storage w) !! key), w) else unavailable w.
Definition setItem (key : string) (value : jsobj) : Async unit := λ w,
  if available (storage w)
  then (Ok (), with_items (<[key := value]> (items (storage w))) w)
  else unavailable w.
Definition removeItem (key : string) : Async unit := λ w,
  if available (storage w)
  then (Ok (), with_items (delete key (items (storage w))) w)
  else unavailable w.
(** [iterate(callback)] with a callback that returns nothing: every pair is
    visited, in the order of the store. *)
Definition iterate {B : Type} (callback : jsobj → string → B → B) (init : B) : Async B :=
  λ w,
  if available (storage w)
  then (Ok (foldl (λ acc kv, callback kv.2 kv.1 acc) init
              (map_to_list (items (storage w)))), w)
  else unavailable w.

Definition Date_now : Async Z := λ w, (Ok (clock w), w).

(** *** The methods of [TodoService] *)

Definition getAllTodos : Async (list jsobj) :=
  try_catch api_get_todos (λ _, throw "Failed to fetch todos").

Definition getTodoById (id : Z) : Async jsobj :=
  try_catch (api_get_todo id)
    (λ _, throw ("Failed to fetch todo with ID " +:+ pretty id)).

(** The body [{ title: todoData.title, completed: false, userId: 1 }]; an
    [undefined] title is not serialised. *)
Definition createBody (todoData : jsobj) : jsobj :=
  let fixed : jsobj := <["completed" := JBool false]> (<["userId" := JNum 1]> ∅) in
  match todoData !! "title" with
  | Some title => <["title" := title]> fixed
  | None => fixed
  end.

Definition createTodo (todoData : jsobj) : Async jsobj :=
  try_catch
    (let! response := api_post (createBody todoData) in
     let! now := Date_now in
     let localTodo : jsobj :=
       <["isLocal" := JBool true]> (<["id" := JNum now]> response) in
     let! _ := setItem (todoKey now) localTodo in
     ret localTodo)
    (λ _, throw "Failed to create todo").

Definition updateTodo (id : Z) (todoData : jsobj) : Async jsobj :=
  try_catch
    (let! response := api_put id todoData in
     let! localTodo := getItem (todoKey id) in
     match localTodo with
     | Some localTodo =>
         let updatedTodo := spread localTodo todoData in
         let! _ := setItem (todoKey id) updatedTodo in
         ret updatedTodo
     | None => ret response
     end)
    (λ _, throw ("Failed to update todo with ID " +:+ pretty id)).

Definition deleteTodo (id : Z) : Async jsobj :=
  try_catch
    (let! _ := api_delete id in
     let! _ := removeItem (todoKey id) in
     ret ({["success" := JBool true]} : jsobj))
    (λ _, throw ("Failed to delete todo with ID " +:+ pretty id)).

Definition getLocalTodos : Async (list jsobj) :=
  try_catch
    (iterate (λ value key localTodos,
                if startsWith key "todo-" then localTodos ++ [value] else localTodos)
             [])
    (λ _, ret []).

Definition searchTodos (query : string) : Async (list jsobj) :=
  try_catch
    (let! allTodos := getAllTodos in
     let! localTodos := getLocalTodos in
     let combinedTodos := allTodos ++ localTodos in
     lift (filterE (titleIncludes query) combinedTodos))
    (λ _, throw "Failed to search todos").

(** [Promise.all] of two promises: both run, the first rejection wins. *)
Definition Promise_all {A B : Type} (a : Async A) (b : Async B) : Async (A * B) :=
  λ w,
  let '(ra, w1) := a w in
  let '(rb, w2) := b w1 in
  (match ra, rb with
   | Ok x, Ok y => Ok (x, y)
   | Throw msg, _ => Throw msg
   | Ok _, Throw msg => Throw msg
   end, w2).

(** The [queryFn] of the ['todos'] query in [TodoList.jsx]: fetch-all. *)
Definition queryFn : Async (list jsobj) :=
  let! both := Promise_all getAllTodos getLocalTodos in
  ret (both.1 ++ both.2).

End WithRemote.
Global Arguments World : clear implicits.
Global Arguments Async : clear implicits.
End TodoService.

(** ** A simulated server

    A server in the manner of the public placeholder API the service is
    configured for: it serves a fixed list of tasks, answers a write with the
    object the write would produce, and keeps nothing.  A request is rejected
    when the server is unreachable, or when it reads a single task under an
    identifier the list does not have. *)

Module Simulated.

Record state : Type := {
  db : list jsobj;
  online : bool;
}.

Definition hasId (id : Z) (todo : jsobj) : bool :=
  bool_decide (todo !! "id" = Some (JNum id)).

Definition find (id : Z) (s : state) : option jsobj :=
  List.find (hasId id) (db s).

Definition when_online {A : Type} (s : state) (r : option A) : option A :=
  if online s then r else None.

Definition api : RemoteApi := {|
  server := state;
  GET_todos s := when_online s (Some (db s));
  GET_todo id s := when_online s (find id s);
  POST_todos body s :=
    (when_online s (Some (<["id" := JNum (Z.of_nat (length (db s)) + 1)]> body)), s);
  PUT_todo id body s :=
    (when_online s (Some (<["id" := JNum id]> body)), s);
  DELETE_todo id s := (when_online s (Some ()), s);
|}.

End Simulated.

(** ** A server with a mind of its own

    Nothing in the service asks the remote API to answer a creation with what
    it was sent.  This server answers every creation with one and the same
    task of its own; it serves no list and accepts the other writes. *)

Module Headstrong.

Definition answer : jsobj :=
  <["id" := JNum 201]> (<["title" := JStr "other"]>
    (<["completed" := JBool true]> (<["userId" := JNum 7]> ∅))).

Definition api : RemoteApi := {|
  server := unit;
  GET_todos _ := Some [];
  GET_todo _ _ := None;
  POST_todos _ s := (Some answer, s);
  PUT_todo _ body s := (Some body, s);
  DELETE_todo _ s := (Some (), s);
|}.

End Headstrong.

(** ** The list view ([TodoList.jsx]) *)

Module TodoList.

Definition todosPerPage : Z := 10.

Definition filteredTodos {J : Runtime}
    (todos : list jsobj) (searchQuery filterStatus : string)
    : result (list jsobj) :=
  filtered ←
    (if nonempty (trim searchQuery)
     then filterE (titleIncludes searchQuery) todos
     else Ok todos);
  if String.eqb filterStatus "completed"
  then Ok (List.filter (λ todo, truthy (todo !! "completed")) filtered)
  else if String.eqb filterStatus "pending"
  then Ok (List.filter (λ todo, negb (truthy (todo !! "completed"))) filtered)
  else Ok filtered.

(** [Math.ceil(n / d)] for a length [n] and a positive [d]. *)
Definition ceil_div (n d : Z) : Z :=
  if (n mod d =? 0)%Z then (n / d)%Z else (n / d + 1)%Z.

Definition totalTodos (filtered : list jsobj) : Z := Z.of_nat (length filtered).
Definition totalPages (filtered : list jsobj) : Z :=
  ceil_div (totalTodos filtered) todosPerPage.
Definition startIndex (currentPage : Z) : Z := ((currentPage - 1) * todosPerPage)%Z.
Definition endIndex (currentPage : Z) : Z := (startIndex currentPage + todosPerPage)%Z.
Definition currentTodos (filtered : list jsobj) (currentPage : Z) : list jsobj :=
  slice (startIndex currentPage) (endIndex currentPage) filtered.

(** *** The state of the view

    The three pieces of state the handlers set, and the effect
    [useEffect(() => setCurrentPage(1), [searchQuery, filterStatus])], which
    runs after a render in which one of its two dependencies has changed. *)

Record viewState : Type := {
  searchQuery : string;
  filterStatus : string;
  currentPage : Z;
}.

Definition initialView : viewState :=
  {| searchQuery := ""; filterStatus := "all"; currentPage := 1 |}.

Definition resetPageEffect (before after : viewState) : viewState :=
  if decide (searchQuery before = searchQuery after ∧
             filterStatus before = filterStatus after)
  then after
  else {| searchQuery := searchQuery after;
          filterStatus := filterStatus after;
          currentPage := 1 |}.

Definition setSearchQuery (value : string) (v : viewState) : viewState :=
  resetPageEffect v
    {| searchQuery := value; filterStatus := filterStatus v;
       currentPage := currentPage v |}.

Definition setFilterStatus (value : string) (v : viewState) : viewState :=
  resetPageEffect v
    {| searchQuery := searchQuery v; filterStatus := value;
       currentPage := currentPage v |}.

Definition handlePageChange (page : Z) (v : viewState) : viewState :=
  {| searchQuery := searchQuery v; filterStatus := filterStatus v;
     currentPage := page |}.

Definition clearSearch (v : viewState) : viewState := setSearchQuery "" v.

(** *** The pagination controls

    What [[...Array(totalPages)].map((_, index) => ...)] renders at an index:
    a page button, an ellipsis or nothing. *)

Inductive pageItem : Type :=
  | PageButton (page : Z) (isCurrentPage : bool)
  | Ellipsis
  | NoItem.

Definition showPage (totalPages currentPage page : Z) : bool :=
  (page =? 1)%Z || (page =? totalPages)%Z || (Z.abs (page - currentPage) <=? 1)%Z.

Definition pageItemAt (totalPages currentPage index : Z) : pageItem :=
  let page := (index + 1)%Z in
  let isCurrentPage := (page =? currentPage)%Z in
  if negb (showPage totalPages currentPage page) && (page =? 2)%Z
     && (currentPage >? 4)%Z
  then Ellipsis
  else if negb (showPage totalPages currentPage page)
          && (page =? totalPages - 1)%Z && (currentPage <? totalPages - 3)%Z
  then Ellipsis
  else if negb (showPage totalPages currentPage page) then NoItem
  else PageButton page isCurrentPage.

Definition pageItems (totalPages currentPage : Z) : list pageItem :=
  pageItemAt totalPages currentPage <$> seqZ 0 totalPages.

(** The controls of the pagination bar and the page a click on one asks
    [handlePageChange] for: nothing when the bar is not rendered
    ([totalPages > 1] fails), the button is disabled or the index renders no
    button. *)
Inductive control : Type :=
  | Previous
  | Next
  | AtIndex (index : Z).

Definition clickTarget (totalPages currentPage : Z) (c : control) : option Z :=
  if negb (totalPages >? 1)%Z then None
  else match c with
       | Previous =>
           if (currentPage =? 1)%Z then None else Some (currentPage - 1)%Z
       | Next =>
           if (currentPage =? totalPages)%Z then None else Some (currentPage + 1)%Z
       | AtIndex index =>
           if bool_decide (0 ≤ index < totalPages)%Z
           then match pageItemAt totalPages currentPage index with
                | PageButton page _ => Some page
                | _ => None
                end
           else None
       end.

End TodoList.

(** ** The toggle of a task ([TodoDetail], [TodoItem]) *)

Module TodoDetail.

(** The payload [{ ...todo, completed: !todo.completed }] that
    [handleToggleComplete] and [handleToggle] pass to [updateTodo] together
    with [todo.id]. *)
Definition toggled (todo : jsobj) : jsobj :=
  <["completed" := JBool (negb (truthy (todo !! "completed")))]> todo.

(** The identifier the detail view asks the service for,
    [parseInt(id)] of the route parameter. *)
Definition queryId (param : string) : option Z := parseInt param.

End TodoDetail.

(** ** The creation form ([CreateTodo]) *)

Module CreateTodo.
Section WithCallback.

Context {R : RemoteApi}.
Variable onCreateTodo : jsobj → TodoService.Async R unit.

Record formState : Type := {
  isFormOpen : bool;
  title : string;
  error : string;
}.

Definition setError (msg : string) (f : formState) : formState :=
  {| isFormOpen := isFormOpen f; title := title f; error := msg |}.

(** [handleSubmit]: two validations, then the callback; the form is reset
    when the callback resolves and shows an error when it rejects. *)
Definition handleSubmit (f : formState) : TodoService.Async R formState :=
  if String.eqb (trim (title f)) ""
  then TodoService.ret (setError "Please enter a todo title" f)
  else if (strLength (trim (title f)) <? 3)%nat
  then TodoService.ret (setError "Todo title must be at least 3 characters long" f)
  else
    TodoService.try_catch
      (TodoService.bind (onCreateTodo {["title" := JStr (trim (title f))]})
         (λ _, TodoService.ret {| isFormOpen := false; title := ""; error := "" |}))
      (λ _, TodoService.ret (setError "Failed to create todo. Please try again." f)).

(** [handleInputChange] *)
Definition handleInputChange (value : string) (f : formState) : formState :=
  {| isFormOpen := isFormOpen f; title := value; error := "" |}.

(** The submit button is disabled while loading or when the trimmed title is
    empty. *)
Definition submitDisabled (isLoading : bool) (f : formState) : bool :=
  isLoading || (strLength (trim (title f)) =? 0)%nat.

End WithCallback.
End CreateTodo.

(** ** A task of the list ([TodoItem]) *)

Module TodoItem.
Section WithCallbacks.

Context {R : RemoteApi}.
Variable todo : jsobj.
Variable onEdit onToggle : option jsval → jsobj → TodoService.Async R unit.

Record itemState : Type := {
  isEditing : bool;
  editTitle : string;
  isLoading : bool;
}.

Definition setIsEditing (b : bool) (i : itemState) : itemState :=
  {| isEditing := b; editTitle := editTitle i; isLoading := isLoading i |}.
Definition setIsLoading (b : bool) (i : itemState) : itemState :=
  {| isEditing := isEditing i; editTitle := editTitle i; isLoading := b |}.

(** What a handler leaves behind: the state of the item and the messages it
    showed with [alert]. *)
Definition outcome : Type := itemState * list string.

(** [handleSave] *)
Definition handleSave (i : itemState) : TodoService.Async R outcome :=
  if String.eqb (trim (editTitle i)) ""
  then TodoService.ret (i, ["Todo title cannot be empty"])
  else if bool_decide (todo !! "title" = Some (JStr (trim (editTitle i))))
  then TodoService.ret (setIsEditing false i, [])
  else
    TodoService.bind
      (TodoService.try_catch
         (TodoService.bind
            (onEdit (todo !! "id") (<["title" := JStr (trim (editTitle i))]> todo))
            (λ _, TodoService.ret (setIsEditing false (setIsLoading true i), [])))
         (λ _, TodoService.ret
                 (setIsLoading true i, ["Failed to edit todo. Please try again."])))
      (λ o, TodoService.ret (setIsLoading false o.1, o.2)).

(** [handleToggle] *)
Definition handleToggle (i : itemState) : TodoService.Async R outcome :=
  TodoService.bind
    (TodoService.try_catch
       (TodoService.bind
          (onToggle (todo !! "id") (TodoDetail.toggled todo))
          (λ _, TodoService.ret (setIsLoading true i, [])))
       (λ _, TodoService.ret
               (setIsLoading true i, ["Failed to update todo. Please try again."])))
    (λ o, TodoService.ret (setIsLoading false o.1, o.2)).

End WithCallbacks.

(** The link of an item to its detail view, [`/todo/${todo.id}`], and in it
    the text that the route [/todo/:id] hands to the detail view. *)
Definition linkParam (todo : jsobj) : string := templateText (todo !! "id").
Definition detailLink (todo : jsobj) : string := "/todo/" +:+ linkParam todo.

End TodoItem.

(** ** The error boundary ([ErrorBoundary]) *)

Module ErrorBoundary.

Record state : Type := {
  hasError : bool;
  error : option string;
  errorInfo : option string;
}.

(** The state the constructor sets. *)
Definition initial : state :=
  {| hasError := false; error := None; errorInfo := None |}.

(** [getDerivedStateFromError] returns [{ hasError: true }], which React
    merges into the state. *)
Definition getDerivedStateFromError (err : string) (s : state) : state :=
  {| hasError := true; error := error s; errorInfo := errorInfo s |}.

(** [componentDidCatch] *)
Definition componentDidCatch (err info : string) (s : state) : state :=
  {| hasError := hasError s; error := Some err; errorInfo := Some info |}.

(** [handleReset] *)
Definition handleReset (s : state) : state :=
  {| hasError := false; error := None; errorInfo := None |}.

(** What [render] shows. *)
Inductive rendered : Type := Fallback | Children.

Definition render (s : state) : rendered :=
  if hasError s then Fallback else Children.

(** What happens to a boundary: a descendant throws (React then runs the two
    lifecycle methods), or the user presses the reset button. *)
Inductive event : Type :=
  | Thrown (err info : string)
  | ResetPressed.

Definition step (s : state) (e : event) : state :=
  match e with
  | Thrown err info => componentDidCatch err info (getDerivedStateFromError err s)
  | ResetPressed => handleReset s
  end.

Definition run (events : list event) : state := foldl step initial events.

End ErrorBoundary.

(** * The vocabulary of the properties *)

(** The title contains the query up to case: the lower-case form of the
    query occurs in the lower-case form of the title. *)
Definition contains_ci {J : Runtime} (title query : string) : Prop :=
  ∃ pre post, toLowerCase title = pre +:+ toLowerCase query +:+ post.

(** Every task of the list has a string title that contains the query up to
    case. *)
Definition all_contain {J : Runtime} (query : string) (l : list jsobj) : Prop :=
  ∀ todo, todo ∈ l →
    ∃ title, todo !! "title" = Some (JStr title) ∧ contains_ci title query.

(** What the claims on pagination say of a filtered list: the page count is
    the ceiling of the count over ten, page [p] shows the elements at the
    indices [(p-1)*10 .. p*10), and the pages in order give the list back. *)
Definition paginated (filtered : list jsobj) : Prop :=
  (TodoList.totalTodos filtered ≤ TodoList.totalPages filtered * 10
     < TodoList.totalTodos filtered + 10)%Z ∧
  (∀ p, (1 ≤ p ≤ TodoList.totalPages filtered)%Z →
    ∀ i : nat, TodoList.currentTodos filtered p !! i =
      if decide (i < 10)%nat
      then filtered !! (Z.to_nat ((p - 1) * 10) + i)%nat
      else None) ∧
  concat (TodoList.currentTodos filtered <$> seqZ 1 (TodoList.totalPages filtered))
    = filtered.

(** The values the store holds under the keys that start with [todo-], in
    the order of the store. *)
Definition localValues (m : gmap string jsobj) : list jsobj :=
  (filter (λ kv, startsWith kv.1 "todo-" = true) (map_to_list m)).*2.

(** What [getLocalTodos] yields in a world. *)
Definition localTodosOf {R : RemoteApi} (w : TodoService.World R) : list jsobj :=
  if available (TodoService.storage w)
  then localValues (items (TodoService.storage w))
  else [].

(** The task [createTodo] builds from a response at a given time. *)
Definition localTodoOf (response : jsobj) (now : Z) : jsobj :=
  <["isLocal" := JBool true]> (<["id" := JNum now]> response).

(** A stored task sits under the key of its own identifier. *)
Definition keyed_by_id (key : string) (todo : jsobj) : Prop :=
  startsWith key "todo-" = true →
  match todo !! "id" with
  | Some (JNum id) => key = todoKey id
  | _ => False
  end.

Global Instance keyed_by_id_dec key todo : Decision (keyed_by_id key todo).
Proof.
  unfold keyed_by_id. destruct (todo !! "id") as [[| | |]|]; apply _.
Defined.

Definition stored_by_id (m : gmap string jsobj) : Prop := map_Forall keyed_by_id m.

(** The identifiers of a list of tasks, in order. *)
Definition ids (l : list jsobj) : list (option jsval) :=
  (λ todo : jsobj, todo !! "id") <$> l.

(** The tasks of a list that carry a given identifier. *)
Definition withId (id : Z) (l : list jsobj) : list jsobj :=
  filter (λ todo : jsobj, todo !! "id" = Some (JNum id)) l.

(** The string begins, ends with a white-space character. *)
Definition begins_with_space (s : string) : Prop :=
  ∃ w r, w ∈ whiteSpace ∧ s = w +:+ r.
Definition ends_with_space (s : string) : Prop :=
  ∃ w r, w ∈ whiteSpace ∧ s = r +:+ w.

(** The string neither begins nor ends with white space. *)
Definition unpadded (s : string) : Prop :=
  ¬ begins_with_space s ∧ ¬ ends_with_space s.

(** The string is made of decimal digits only. *)
Fixpoint decimal (s : string) : bool :=
  match s with
  | EmptyString => true
  | String c r =>
      match digitOf c with
      | Some d => (d <? 10)%Z && decimal r
      | None => false
      end
  end.

(** The task passes the status filter: its completion flag is truthy under
    [completed], falsy under [pending], anything under another status. *)
Definition statusMatches (filterStatus : string) (todo : jsobj) : Prop :=
  if String.eqb filterStatus "completed" then truthy (todo !! "completed") = true
  else if String.eqb filterStatus "pending" then truthy (todo !! "completed") = false
  else True.

(** The item of the pagination bar is a page button, an ellipsis. *)
Definition is_button (i : TodoList.pageItem) : bool :=
  match i with TodoList.PageButton _ _ => true | _ => false end.
Definition is_ellipsis (i : TodoList.pageItem) : bool :=
  match i with TodoList.Ellipsis => true | _ => false end.

(** The task has a string for a title. *)
Definition titled (todo : jsobj) : Prop :=
  ∃ s, todo !! "title" = Some (JStr s).

(** * Sample data

    Three tasks as the remote list serves them, a server that serves them, and
    worlds around it; [1700000000000] is a time in milliseconds as
    [Date.now()] gives it. *)

Module Sample.

Import TodoService.

(** The samples are written with the characters of ASCII, on which every
    engine lowers alike; this one leaves all other text as it is. *)
Definition runtime : Runtime :=
  {| toLowerCase := asciiLowerCase; toLowerCase_ascii := λ _ _, eq_refl |}.

Definition task (id : Z) (title : string) (completed : bool) : jsobj :=
  <["userId" := JNum 1]> (<["id" := JNum id]>
    (<["title" := JStr title]> (<["completed" := JBool completed]> ∅))).

Definition t1 : jsobj := task 1 "delectus aut autem" false.
Definition t2 : jsobj := task 2 "quis ut nam facilis et officia qui" false.
Definition t4 : jsobj := task 4 "et porro tempora" true.

Definition up : Simulated.state := {| Simulated.db := [t1; t2; t4]; Simulated.online := true |}.
Definition down : Simulated.state := {| Simulated.db := [t1; t2; t4]; Simulated.online := false |}.

Definition world (s : Simulated.state) (m : gmap string jsobj) (ok : bool) (now : Z)
    : World Simulated.api :=
  @Build_World Simulated.api s {| items := m; available := ok |} now.

Definition now : Z := 1700000000000.

(** A task created earlier, as [createTodo] stored it. *)
Definition mine : jsobj :=
  <["isLocal" := JBool true]> (task 1690000000000 "Buy milk" false).
Definition other : jsobj :=
  <["isLocal" := JBool true]> (task 1690000000001 "Call home" false).

Definition store1 : gmap string jsobj := {[ todoKey 1690000000000 := mine ]}.
Definition store2 : gmap string jsobj :=
  <[todoKey 1690000000001 := other]> store1.

End Sample.

(** * Properties *)

(** Opens a method body: the control operators, the requests and the
    [localforage] calls become matches on the world. *)
Ltac open_async :=
  unfold TodoService.try_catch, TodoService.bind, TodoService.lift,
    TodoService.ret, TodoService.throw, TodoService.unavailable,
    TodoService.api_get_todos, TodoService.api_get_todo, TodoService.api_post,
    TodoService.api_put, TodoService.api_delete, TodoService.respond,
    TodoService.getItem, TodoService.setItem, TodoService.removeItem,
    TodoService.iterate, TodoService.Date_now, TodoService.throw.

(** ** Strings *)

Section Strings.

Implicit Types s q p pre post : string.

Lemma append_nil_l s : "" +:+ s = s.
Proof. reflexivity. Qed.

Lemma append_cons a s q : String a s +:+ q = String a (s +:+ q).
Proof. reflexivity. Qed.

Lemma append_nil_r s : s +:+ "" = s.
Proof. induction s as [|a s IH]; [done|]. by rewrite append_cons, IH. Qed.

Lemma append_assoc s q p : (s +:+ q) +:+ p = s +:+ (q +:+ p).
Proof. induction s as [|a s IH]; [done|]. by rewrite !append_cons, IH. Qed.

Lemma startsWith_spec s p : startsWith s p = true ↔ ∃ post, s = p +:+ post.
Proof.
  revert s. induction p as [|a p IH]; intros s; simpl.
  - split; [intros _; by exists s | done].
  - destruct s as [|b s].
    + split; [done | intros [post H]; by rewrite append_cons in H].
    + destruct (Ascii.eqb a b) eqn:E.
      * apply Ascii.eqb_eq in E as ->. rewrite IH. split.
        -- intros [post ->]. by exists post.
        -- intros [post H]. rewrite append_cons in H. exists post. congruence.
      * apply Ascii.eqb_neq in E. split; [done|].
        intros [post H]. rewrite append_cons in H. congruence.
Qed.

Lemma includes_spec s q :
  includes s q = true ↔ ∃ pre post, s = pre +:+ q +:+ post.
Proof.
  induction s as [|a s IH]; simpl.
  - rewrite orb_false_r, startsWith_spec. split.
    + intros [post H]. by exists "", post.
    + intros [[|b pre] [post H]]; [by exists post|].
      by rewrite append_cons in H.
  - rewrite orb_true_iff, startsWith_spec, IH. split.
    + intros [[post H] | (pre & post & H)].
      * by exists "", post.
      * exists (String a pre), post. by rewrite append_cons, H.
    + intros ([|b pre] & post & H).
      * left. by exists post.
      * right. rewrite append_cons in H. exists pre, post. congruence.
Qed.

Lemma toLowerCase_empty {J : Runtime} : toLowerCase "" = "".
Proof. by apply toLowerCase_ascii. Qed.

Lemma includes_lowered_contains_ci {J : Runtime} title query :
  includes (toLowerCase title) (toLowerCase query) = true ↔
  contains_ci title query.
Proof. apply includes_spec. Qed.

Lemma nonempty_true s : nonempty s = true ↔ s ≠ "".
Proof.
  unfold nonempty. rewrite negb_true_iff. split.
  - intros H ->. by rewrite String.eqb_refl in H.
  - intros H. by apply String.eqb_neq.
Qed.

End Strings.

(** ** Pagination *)

Section Pagination.

Local Open Scope Z_scope.
Import TodoList.
Context {J : Runtime}.

(** With [0 ≤ start ≤ stop], [slice] drops [start] elements and keeps at
    most [stop - start]. *)
Lemma slice_within {A : Type} (l : list A) (start stop : Z) :
  0 ≤ start ≤ stop →
  slice start stop l = take (Z.to_nat (stop - start)) (drop (Z.to_nat start) l).
Proof.
  intros [Hs Hst]. unfold slice.
  destruct (Z.ltb_spec start 0); [lia|].
  destruct (Z.ltb_spec stop 0); [lia|].
  destruct (Z.le_gt_cases (Z.of_nat (length l)) start) as [Hge | Hlt].
  - rewrite Z.min_r by lia.
    rewrite (drop_ge l (Z.to_nat start)) by lia.
    rewrite drop_ge by lia. by rewrite !take_nil.
  - rewrite (Z.min_l start) by lia.
    destruct (Z.le_gt_cases stop (Z.of_nat (length l))).
    + rewrite (Z.min_l stop), Z.max_l by lia. done.
    + rewrite (Z.min_r stop), Z.max_l by lia.
      rewrite !take_ge; [done | rewrite length_drop; lia ..].
Qed.

(** [ceil_div n d] is the least number of blocks of [d] that cover [n]. *)
Lemma ceil_div_sandwich (n d : Z) :
  0 < d → n ≤ ceil_div n d * d < n + d.
Proof.
  intros Hd. unfold ceil_div.
  pose proof (Z.div_mod n d ltac:(lia)) as Hdm.
  pose proof (Z.mod_pos_bound n d Hd) as Hm.
  destruct (Z.eqb_spec (n mod d) 0) as [E | E]; nia.
Qed.

Lemma ceil_div_unique (n d k : Z) :
  0 < d → n ≤ k * d < n + d → k = ceil_div n d.
Proof.
  intros Hd Hk. pose proof (ceil_div_sandwich n d Hd). nia.
Qed.

Lemma totalPages_nonneg (filtered : list jsobj) : 0 ≤ totalPages filtered.
Proof.
  pose proof (ceil_div_sandwich (totalTodos filtered) todosPerPage eq_refl) as H.
  unfold totalPages, totalTodos, todosPerPage in *. lia.
Qed.

Lemma currentTodos_within (filtered : list jsobj) (p : Z) :
  1 ≤ p →
  currentTodos filtered p = take 10 (drop (Z.to_nat ((p - 1) * 10)) filtered).
Proof.
  intros Hp. unfold currentTodos, endIndex, startIndex, todosPerPage.
  rewrite slice_within by lia.
  by replace ((p - 1) * 10 + 10 - (p - 1) * 10) with 10 by lia.
Qed.

(** The pages [m + 1 .. m + k] laid end to end are the [10 k] elements that
    follow the first [10 m]. *)
Lemma pages_concat (filtered : list jsobj) (k m : nat) :
  concat (currentTodos filtered <$> seqZ (Z.of_nat m + 1) (Z.of_nat k)) =
  take (k * 10) (drop (m * 10) filtered).
Proof.
  revert m. induction k as [|k IH]; intros m.
  - by rewrite seqZ_nil.
  - rewrite seqZ_cons by lia. cbn [fmap list_fmap concat].
    replace (Z.succ (Z.of_nat m + 1)) with (Z.of_nat (S m) + 1) by lia.
    replace (Z.pred (Z.of_nat (S k))) with (Z.of_nat k) by lia.
    rewrite IH, currentTodos_within by lia.
    replace (Z.to_nat ((Z.of_nat m + 1 - 1) * 10)) with (m * 10)%nat by lia.
    replace (S m * 10)%nat with (m * 10 + 10)%nat by lia.
    by rewrite <- drop_drop, take_take_drop.
Qed.

(** Page size 10 and 23 filtered items: 3 pages, the third has 3 items. *)
Lemma pagination_example (filtered : list jsobj) :
  length filtered = 23%nat →
  totalPages filtered = 3 ∧ length (currentTodos filtered 3) = 3%nat.
Proof.
  intros H. split.
  - unfold totalPages, totalTodos. by rewrite H.
  - rewrite currentTodos_within by lia.
    rewrite length_take, length_drop, H. reflexivity.
Qed.

(** C1.  Whatever the merged collection, the search string and the status
    filter, when the filter yields a list: the page count is the ceiling of
    the filtered count over the page size ten (the one number [k] with
    [count ≤ 10 k < count + 10]); for each page [p] from 1 to the page count
    the displayed slice holds exactly the elements of the filtered list at
    the indices [(p-1)*10] up to [p*10] exclusive; and the slices of the
    pages 1 to the page count, concatenated, are the filtered list. *)
Theorem pagination_covers_filtered
    (todos : list jsobj) (searchQuery filterStatus : string)
    (filtered : list jsobj) :
  filteredTodos todos searchQuery filterStatus = Ok filtered →
  paginated filtered.
Proof.
  intros _.
  pose proof (ceil_div_sandwich (totalTodos filtered) todosPerPage eq_refl) as H.
  fold (totalPages filtered) in H. unfold todosPerPage in H.
  split; [done|]. split.
  - intros p [Hp _] i. rewrite currentTodos_within by done.
    rewrite lookup_take. case_decide; [|done]. by rewrite lookup_drop.
  - pose proof (pages_concat filtered (Z.to_nat (totalPages filtered)) 0) as Hc.
    rewrite Z2Nat.id in Hc by apply totalPages_nonneg.
    change (Z.of_nat 0 + 1) with 1 in Hc.
    rewrite Hc. cbn [Nat.mul drop]. apply take_ge.
    unfold totalTodos in H. lia.
Qed.

End Pagination.

(** ** Search *)

Section Search.

Import TodoList TodoService.
Context {J : Runtime}.

Lemma filterE_Ok_inv {A : Type} (p : A → result bool) (l filtered : list A) :
  filterE p l = Ok filtered →
  ∀ x, x ∈ filtered → x ∈ l ∧ p x = Ok true.
Proof.
  revert filtered. induction l as [|y l IH]; intros filtered; simpl.
  - intros [= <-] x Hx. by apply not_elem_of_nil in Hx.
  - destruct (p y) as [b|] eqn:Hy; [|done]. simpl.
    destruct (filterE p l) as [r|] eqn:Hr; [|done]. simpl.
    intros [= <-] x Hx. destruct b.
    + apply elem_of_cons in Hx as [-> | Hx].
      * split; [left | done].
      * destruct (IH r eq_refl x Hx). split; [by right | done].
    + destruct (IH r eq_refl x Hx). split; [by right | done].
Qed.

(** The callback never throws on a list whose titles are all strings. *)
Lemma filterE_titleIncludes_total (query : string) (todos : list jsobj) :
  Forall (λ todo : jsobj, ∃ s, todo !! "title" = Some (JStr s)) todos →
  ∃ filtered, filterE (titleIncludes query) todos = Ok filtered.
Proof.
  induction 1 as [|todo todos [s Hs] _ [r IH]]; [by eexists|].
  assert (∃ b, titleIncludes query todo = Ok b) as [b Hb].
  { unfold titleIncludes. rewrite Hs. by eexists. }
  cbn [filterE]. rewrite Hb, IH. by eexists.
Qed.

Lemma filteredTodos_total (todos : list jsobj) (searchQuery filterStatus : string) :
  Forall (λ todo : jsobj, ∃ s, todo !! "title" = Some (JStr s)) todos →
  ∃ filtered, filteredTodos todos searchQuery filterStatus = Ok filtered.
Proof.
  intros Htitles. unfold filteredTodos.
  destruct (nonempty (trim searchQuery)).
  - destruct (filterE_titleIncludes_total searchQuery todos Htitles) as [r ->].
    simpl. repeat case_match; by eexists.
  - simpl. repeat case_match; by eexists.
Qed.

Lemma titleIncludes_true (query : string) (todo : jsobj) :
  titleIncludes query todo = Ok true →
  ∃ title, todo !! "title" = Some (JStr title) ∧ contains_ci title query.
Proof.
  unfold titleIncludes. intros H.
  destruct (todo !! "title") as [[| | |title]|]; try done.
  injection H as H. exists title. split; [done|].
  by apply includes_lowered_contains_ci.
Qed.

Lemma elem_of_List_filter {A : Type} (f : A → bool) (l : list A) (x : A) :
  x ∈ List.filter f l → x ∈ l.
Proof. rewrite !list_elem_of_In, filter_In. tauto. Qed.

Lemma filteredTodos_searched (todos : list jsobj) (searchQuery filterStatus : string)
    (filtered : list jsobj) :
  trim searchQuery ≠ "" →
  filteredTodos todos searchQuery filterStatus = Ok filtered →
  all_contain searchQuery filtered.
Proof.
  intros Hq%nonempty_true. unfold filteredTodos. rewrite Hq.
  destruct (filterE (titleIncludes searchQuery) todos) as [r|] eqn:Hr; [|done].
  simpl. intros Hf todo Hin.
  assert (todo ∈ r) as Hr'.
  { repeat case_match; simplify_eq; eauto using elem_of_List_filter. }
  destruct (filterE_Ok_inv _ _ _ Hr todo Hr') as [_ Hm].
  by apply titleIncludes_true.
Qed.

Lemma searchTodos_searched {R : RemoteApi} (query : string)
    (w w' : World R) (found : list jsobj) :
  searchTodos query w = (Ok found, w') →
  all_contain query found.
Proof.
  unfold searchTodos. open_async.
  destruct (getAllTodos w) as [[allTodos|] w1]; [|done].
  destruct (getLocalTodos w1) as [[localTodos|] w2]; [|done].
  destruct (filterE _ _) as [r|] eqn:Hr; [|done].
  intros [= <- <-] todo Hin.
  destruct (filterE_Ok_inv _ _ _ Hr todo Hin) as [_ Hm].
  by apply titleIncludes_true.
Qed.

(** A search string of blanks only is non-empty, yet the list view applies
    no search filter for it: a task whose title has no blank stays. *)
Lemma blank_search_keeps_everything :
  let todo : jsobj := {["title" := JStr "abc"]} in
  " " ≠ "" ∧
  filteredTodos (J := Sample.runtime) [todo] " " "all" = Ok [todo] ∧
  todo !! "title" = Some (JStr "abc") ∧
  ¬ contains_ci (J := Sample.runtime) "abc" " ".
Proof.
  repeat split; [done|].
  rewrite <- includes_lowered_contains_ci. by vm_compute.
Qed.

(** C2, amended.  For every search string with a character that is not
    white space, every item of the list view's search-filtered result has a
    title that contains the search string case-insensitively, whatever the
    merged collection and the status filter; and for every search string at
    all the same holds of every item [TodoService.searchTodos] returns. *)
Theorem search_results_contain_query (searchQuery : string) :
  (trim searchQuery ≠ "" →
   ∀ (todos : list jsobj) (filterStatus : string) (filtered : list jsobj),
     filteredTodos todos searchQuery filterStatus = Ok filtered →
     all_contain searchQuery filtered) ∧
  (∀ (R : RemoteApi) (w w' : World R) (found : list jsobj),
     searchTodos searchQuery w = (Ok found, w') →
     all_contain searchQuery found).
Proof.
  split.
  - intros Hq todos filterStatus filtered. by apply filteredTodos_searched.
  - intros R w w' found. apply searchTodos_searched.
Qed.

End Search.

(** ** The two reads and fetch-all *)

Section FetchAll.

Import TodoService.
Context {R : RemoteApi}.
Implicit Types (w : World R) (m : gmap string jsobj).

Lemma foldl_push (l : list (string * jsobj)) (acc : list jsobj) :
  foldl (λ localTodos kv,
           if startsWith kv.1 "todo-" then localTodos ++ [kv.2] else localTodos)
        acc l
  = acc ++ (filter (λ kv, startsWith kv.1 "todo-" = true) l).*2.
Proof.
  revert acc. induction l as [|[k v] l IH]; intros acc.
  - simpl. by rewrite app_nil_r.
  - cbn [foldl]. rewrite IH, filter_cons. cbn [fst snd].
    destruct (startsWith k "todo-") eqn:E.
    + rewrite decide_True by done. rewrite fmap_cons. cbn [snd].
      by rewrite <- app_assoc.
    + by rewrite decide_False by done.
Qed.

Lemma elem_of_localValues m (todo : jsobj) :
  todo ∈ localValues m ↔
  ∃ key, startsWith key "todo-" = true ∧ m !! key = Some todo.
Proof.
  unfold localValues. rewrite list_elem_of_fmap. split.
  - intros ([k v] & -> & [Hk Hin]%list_elem_of_filter).
    apply elem_of_map_to_list in Hin. by exists k.
  - intros (k & Hk & Hm). exists (k, todo). split; [done|].
    apply list_elem_of_filter. split; [done|]. by apply elem_of_map_to_list.
Qed.

Lemma getAllTodos_eq w :
  getAllTodos w =
  (match GET_todos R (remote w) with
   | Some apiTodos => Ok apiTodos
   | None => Throw "Failed to fetch todos"
   end, w).
Proof.
  unfold getAllTodos. open_async.
  by destruct (GET_todos R (remote w)).
Qed.

(** The local read never throws: a failing store reads as no task. *)
Lemma getLocalTodos_eq w : getLocalTodos w = (Ok (localTodosOf w), w).
Proof.
  unfold getLocalTodos, localTodosOf. open_async.
  destruct (available (storage w)); [|done].
  by rewrite foldl_push.
Qed.

Lemma queryFn_eq w :
  queryFn w =
  (match GET_todos R (remote w) with
   | Some apiTodos => Ok (apiTodos ++ localTodosOf w)
   | None => Throw "Failed to fetch todos"
   end, w).
Proof.
  unfold queryFn, bind, Promise_all, ret.
  rewrite getAllTodos_eq, getLocalTodos_eq.
  by destruct (GET_todos R (remote w)).
Qed.

(** C7.  When the remote read answers, fetch-all returns the remote list
    followed by the full local list (every value stored under a [todo-]
    key): the remote tasks come first and the local tasks second, each in
    the order its source gave, and nothing is dropped or merged, so the
    length is the sum of the two lengths.  Both reads are taken in the same
    world and neither changes it, which is all that remains of their
    running concurrently. *)
Theorem fetch_all_concatenates w (apiTodos : list jsobj) :
  GET_todos R (remote w) = Some apiTodos →
  ∃ localTodos merged,
    getAllTodos w = (Ok apiTodos, w) ∧
    getLocalTodos w = (Ok localTodos, w) ∧
    queryFn w = (Ok merged, w) ∧
    merged = apiTodos ++ localTodos ∧
    (∀ todo, todo ∈ localTodos ↔
       available (storage w) = true ∧
       ∃ key, startsWith key "todo-" = true ∧
              items (storage w) !! key = Some todo) ∧
    (∀ i, (i < length apiTodos)%nat → merged !! i = apiTodos !! i) ∧
    (∀ j, merged !! (length apiTodos + j)%nat = localTodos !! j) ∧
    length merged = (length apiTodos + length localTodos)%nat.
Proof.
  intros Hget. exists (localTodosOf w), (apiTodos ++ localTodosOf w).
  rewrite getAllTodos_eq, getLocalTodos_eq, queryFn_eq, Hget.
  split_and!; [done..| | | |].
  - intros todo. unfold localTodosOf.
    destruct (available (storage w)).
    + rewrite elem_of_localValues. split; [by intros Hk | by intros [_ Hk]].
    + split; [by intros ?%not_elem_of_nil | by intros [? _]].
  - intros i Hi. by apply lookup_app_l.
  - intros j. by rewrite lookup_app_r, Nat.add_comm, Nat.add_sub by lia.
  - apply length_app.
Qed.

(** C4, amended.  A rejected remote read makes fetch-all fail with the one
    error [Failed to fetch todos], which replaces the underlying failure.
    A failure of the local read does not: [getLocalTodos] catches it and
    yields the empty list, and fetch-all then succeeds with the remote list
    alone. *)
Theorem fetch_all_failures w :
  (GET_todos R (remote w) = None →
     queryFn w = (Throw "Failed to fetch todos", w)) ∧
  (available (storage w) = false →
     getLocalTodos w = (Ok [], w) ∧
     ∀ apiTodos, GET_todos R (remote w) = Some apiTodos →
       queryFn w = (Ok apiTodos, w)).
Proof.
  split.
  - intros Hget. by rewrite queryFn_eq, Hget.
  - intros Hav. rewrite getLocalTodos_eq. unfold localTodosOf. rewrite Hav.
    split; [done|]. intros apiTodos Hget.
    rewrite queryFn_eq, Hget. unfold localTodosOf. by rewrite Hav, app_nil_r.
Qed.

End FetchAll.

(** ** The three writes *)

Section Writes.

Import TodoService.
Context {R : RemoteApi}.
Implicit Types (w : World R) (m : gmap string jsobj) (id : Z).

Lemma createTodo_eq w (todoData : jsobj) :
  createTodo todoData w =
  match POST_todos R (createBody todoData) (remote w) with
  | (Some response, s) =>
      let localTodo := localTodoOf response (clock w) in
      if available (storage w)
      then (Ok localTodo,
            with_items (<[todoKey (clock w) := localTodo]> (items (storage w)))
              (with_remote s w))
      else (Throw "Failed to create todo", with_remote s w)
  | (None, s) => (Throw "Failed to create todo", with_remote s w)
  end.
Proof.
  unfold createTodo, localTodoOf. open_async.
  destruct (POST_todos R (createBody todoData) (remote w)) as [[response|] s];
    [|done].
  cbn. by destruct (available (storage w)).
Qed.

Lemma updateTodo_eq w id (todoData : jsobj) :
  updateTodo id todoData w =
  let failed := Throw ("Failed to update todo with ID " +:+ pretty id) in
  match PUT_todo R id todoData (remote w) with
  | (Some response, s) =>
      if available (storage w)
      then match items (storage w) !! todoKey id with
           | Some localTodo =>
               (Ok (spread localTodo todoData),
                with_items (<[todoKey id := spread localTodo todoData]>
                              (items (storage w))) (with_remote s w))
           | None => (Ok response, with_remote s w)
           end
      else (failed, with_remote s w)
  | (None, s) => (failed, with_remote s w)
  end.
Proof.
  unfold updateTodo. open_async.
  destruct (PUT_todo R id todoData (remote w)) as [[response|] s]; [|done].
  cbn. destruct (available (storage w)) eqn:Hav; [|done].
  destruct (items (storage w) !! todoKey id); [|done].
  cbn. by rewrite Hav.
Qed.

Lemma deleteTodo_eq w id :
  deleteTodo id w =
  let failed := Throw ("Failed to delete todo with ID " +:+ pretty id) in
  match DELETE_todo R id (remote w) with
  | (Some _, s) =>
      if available (storage w)
      then (Ok {["success" := JBool true]},
            with_items (delete (todoKey id) (items (storage w))) (with_remote s w))
      else (failed, with_remote s w)
  | (None, s) => (failed, with_remote s w)
  end.
Proof.
  unfold deleteTodo. open_async.
  destruct (DELETE_todo R id (remote w)) as [[[]|] s]; [|done].
  cbn. by destruct (available (storage w)).
Qed.

Lemma getTodoById_eq w id :
  getTodoById id w =
  (match GET_todo R id (remote w) with
   | Some todo => Ok todo
   | None => Throw ("Failed to fetch todo with ID " +:+ pretty id)
   end, w).
Proof.
  unfold getTodoById. open_async.
  by destruct (GET_todo R id (remote w)).
Qed.

(** The request body is made of the title alone. *)
Lemma createBody_title (todoData todoData' : jsobj) :
  todoData' !! "title" = todoData !! "title" →
  createBody todoData' = createBody todoData.
Proof. unfold createBody. by intros ->. Qed.

Lemma createBody_completed (todoData : jsobj) :
  createBody todoData !! "completed" = Some (JBool false).
Proof. unfold createBody. by destruct (todoData !! "title"). Qed.

Lemma createBody_userId (todoData : jsobj) :
  createBody todoData !! "userId" = Some (JNum 1).
Proof. unfold createBody. by destruct (todoData !! "title"). Qed.

Lemma createBody_lookup_title (todoData : jsobj) :
  createBody todoData !! "title" = todoData !! "title".
Proof. unfold createBody. by destruct (todoData !! "title"). Qed.

Lemma spread_lookup (a b : jsobj) (k : string) :
  spread a b !! k = match b !! k with Some v => Some v | None => a !! k end.
Proof.
  unfold spread. rewrite lookup_union. by destruct (b !! k), (a !! k).
Qed.

End Writes.

Section WriteOutcomes.

Import TodoService.
Context {R : RemoteApi}.
Implicit Types (w : World R) (m : gmap string jsobj) (id : Z).

(** C3, amended.  For every create input the create operation first sends
    the request to the remote API.  When the remote call succeeds and the
    local store takes the write, it builds the task from the response with
    the generated identifier and the local-origin flag, writes it to local
    storage under the key of that identifier, leaving the other keys as
    they were, and returns it.  When the remote call fails the operation
    fails with [Failed to create todo] and nothing is written to local
    storage. *)
Theorem create_after_remote w (todoData : jsobj) :
  (∀ s, POST_todos R (createBody todoData) (remote w) = (None, s) →
     ∃ w', createTodo todoData w = (Throw "Failed to create todo", w') ∧
           storage w' = storage w) ∧
  (∀ response s,
     POST_todos R (createBody todoData) (remote w) = (Some response, s) →
     available (storage w) = true →
     ∃ localTodo w',
       createTodo todoData w = (Ok localTodo, w') ∧
       localTodo = <["isLocal" := JBool true]> (<["id" := JNum (clock w)]> response) ∧
       items (storage w') !! todoKey (clock w) = Some localTodo ∧
       ∀ key, key ≠ todoKey (clock w) →
         items (storage w') !! key = items (storage w) !! key).
Proof.
  split.
  - intros s Hpost. rewrite createTodo_eq, Hpost. by eexists.
  - intros response s Hpost Hav. rewrite createTodo_eq, Hpost. cbn zeta.
    rewrite Hav. eexists _, _. split; [done|]. split; [done|]. cbn. split.
    + apply lookup_insert_eq.
    + intros key Hkey. by apply lookup_insert_ne.
Qed.

(** C10, amended.  For every create input for which a task is produced (the
    remote call succeeds and the local store takes the write): the task is
    the response with its local-origin flag set to true and its identifier
    set to the time read from the clock, whatever identifier the response
    carries; every other field, the completion flag, the owning-user
    identifier and the title among them, is the response's.  So the
    completion flag is false, the owning-user identifier 1 and the title the
    input's when the response carries the fields it was sent.  An input with
    the same title, whatever else it holds, gives the same outcome. *)
Theorem created_task_fields w (todoData response : jsobj) (s : server R) :
  POST_todos R (createBody todoData) (remote w) = (Some response, s) →
  available (storage w) = true →
  ∃ localTodo w',
    createTodo todoData w = (Ok localTodo, w') ∧
    localTodo !! "isLocal" = Some (JBool true) ∧
    localTodo !! "id" = Some (JNum (clock w)) ∧
    (∀ k, k ≠ "isLocal" → k ≠ "id" → localTodo !! k = response !! k) ∧
    (createBody todoData ⊆ response →
       localTodo !! "completed" = Some (JBool false) ∧
       localTodo !! "userId" = Some (JNum 1) ∧
       (∀ title, todoData !! "title" = Some title →
          localTodo !! "title" = Some title)) ∧
    (∀ todoData' : jsobj, todoData' !! "title" = todoData !! "title" →
       createTodo todoData' w = createTodo todoData w).
Proof.
  intros Hpost Hav. rewrite createTodo_eq, Hpost. cbn zeta. rewrite Hav.
  eexists _, _. split; [done|]. unfold localTodoOf. split_and!.
  - apply lookup_insert_eq.
  - rewrite lookup_insert_ne by done. apply lookup_insert_eq.
  - intros k Hlocal Hid. by rewrite !lookup_insert_ne.
  - intros Hecho. split_and!.
    + rewrite !lookup_insert_ne by done.
      eapply lookup_weaken; [apply createBody_completed | done].
    + rewrite !lookup_insert_ne by done.
      eapply lookup_weaken; [apply createBody_userId | done].
    + intros title Ht. rewrite !lookup_insert_ne by done.
      eapply lookup_weaken; [|done]. by rewrite createBody_lookup_title.
  - intros todoData' Ht.
    rewrite createTodo_eq, (createBody_title _ _ Ht), Hpost. cbn zeta.
    by rewrite Hav.
Qed.


End WriteOutcomes.

(** ** Identifiers and the local store *)

Section Identifiers.

Implicit Types (m : gmap string jsobj) (id : Z) (todo : jsobj).

Lemma todoKey_inj id id' : todoKey id = todoKey id' → id = id'.
Proof.
  unfold todoKey. intros H%(inj (String.append "todo-")).
  by apply pretty_Z_inj.
Qed.

Lemma todoKey_prefix id : startsWith (todoKey id) "todo-" = true.
Proof. apply startsWith_spec. by exists (pretty id). Qed.

Lemma stored_by_id_lookup m key todo :
  stored_by_id m → m !! key = Some todo → startsWith key "todo-" = true →
  ∃ id, todo !! "id" = Some (JNum id) ∧ key = todoKey id.
Proof.
  intros Hm Hk Hp. specialize (Hm key todo Hk Hp).
  destruct (todo !! "id") as [[| |id|]|]; try done. by exists id.
Qed.

Lemma stored_by_id_insert m id todo :
  stored_by_id m → todo !! "id" = Some (JNum id) →
  stored_by_id (<[todoKey id := todo]> m).
Proof.
  intros Hm Hid. apply map_Forall_insert_2; [|done].
  intros _. by rewrite Hid.
Qed.

Lemma stored_by_id_delete m key : stored_by_id m → stored_by_id (delete key m).
Proof. apply map_Forall_delete. Qed.

Lemma local_ids_NoDup m : stored_by_id m → NoDup (ids (localValues m)).
Proof.
  intros Hm. unfold ids, localValues. rewrite <- list_fmap_compose.
  apply NoDup_fmap_2_strong; [|apply NoDup_filter, NoDup_map_to_list].
  intros [k v] [k' v'] [Hk Hin]%list_elem_of_filter [Hk' Hin']%list_elem_of_filter.
  apply elem_of_map_to_list in Hin, Hin'. cbn in *. intros Hid.
  destruct (stored_by_id_lookup _ _ _ Hm Hin Hk) as (i & Hi & ->).
  destruct (stored_by_id_lookup _ _ _ Hm Hin' Hk') as (i' & Hi' & ->).
  assert (i = i') as <- by congruence. f_equal. congruence.
Qed.

Lemma no_local_after_delete m id todo :
  stored_by_id m → todo ∈ localValues (delete (todoKey id) m) →
  todo !! "id" ≠ Some (JNum id).
Proof.
  intros Hm (key & Hp & Hk)%elem_of_localValues Hid.
  apply lookup_delete_Some in Hk as [Hne Hk].
  destruct (stored_by_id_lookup _ _ _ Hm Hk Hp) as (i & Hi & ->).
  congruence.
Qed.

Lemma withId_none (l : list jsobj) id :
  (∀ todo, todo ∈ l → todo !! "id" ≠ Some (JNum id)) → withId id l = [].
Proof.
  unfold withId. induction l as [|x l IH]; intros Hl; [done|].
  rewrite filter_cons, decide_False by (apply Hl; left).
  apply IH. intros todo Hin. apply Hl. by right.
Qed.

(** In a list without two equal identifiers, an element is the only one
    with its identifier. *)
Lemma withId_NoDup (l : list jsobj) id todo :
  NoDup (ids l) → todo ∈ l → todo !! "id" = Some (JNum id) →
  withId id l = [todo].
Proof.
  unfold withId, ids. induction l as [|x l IH]; intros Hnd Hin Hid.
  - by apply not_elem_of_nil in Hin.
  - rewrite fmap_cons in Hnd. apply NoDup_cons in Hnd as [Hx Hnd].
    rewrite filter_cons. apply elem_of_cons in Hin as [<- | Hin].
    + rewrite decide_True by done. f_equal.
      apply withId_none. intros y Hy Hyid.
      apply Hx, list_elem_of_fmap. exists y. split; [congruence | done].
    + rewrite decide_False; [by apply IH|].
      intros Hxid. apply Hx, list_elem_of_fmap. exists todo.
      split; [congruence | done].
Qed.

End Identifiers.

Section DeleteAndIdentity.

Import TodoService.
Context {R : RemoteApi}.
Implicit Types (w : World R) (m : gmap string jsobj) (id : Z).

(** C5, amended.  For every identifier the delete operation first attempts
    the remote deletion.  When that call fails, the operation fails with
    [Failed to delete todo with ID <id>] and local storage keeps what it
    had, the entry of that identifier included.  When it succeeds and the
    local store takes the call, the entry under the identifier's key is
    gone and every other entry stays; then, as long as local storage is
    not written again and its tasks sit under the keys of their own
    identifiers, a task with that identifier appears in a fetch-all result
    only if the remote list itself has it: a locally created task that was
    deleted is no longer in the local part of any later fetch-all. *)
Theorem delete_after_remote w id :
  (∀ s, DELETE_todo R id (remote w) = (None, s) →
     ∃ w', deleteTodo id w =
             (Throw ("Failed to delete todo with ID " +:+ pretty id), w') ∧
           remote w' = s ∧ storage w' = storage w) ∧
  (∀ s, DELETE_todo R id (remote w) = (Some (), s) →
     available (storage w) = true →
     ∃ w', deleteTodo id w = (Ok {["success" := JBool true]}, w') ∧
           remote w' = s ∧
           items (storage w') !! todoKey id = None ∧
           (∀ key, key ≠ todoKey id →
              items (storage w') !! key = items (storage w) !! key) ∧
           (stored_by_id (items (storage w)) →
            ∀ w'' merged apiTodos,
              storage w'' = storage w' →
              GET_todos R (remote w'') = Some apiTodos →
              queryFn w'' = (Ok merged, w'') →
              ∀ todo, todo ∈ merged → todo !! "id" = Some (JNum id) →
                      todo ∈ apiTodos)).
Proof.
  split.
  - intros s Hdel. rewrite deleteTodo_eq, Hdel. by eexists.
  - intros s Hdel Hav. rewrite deleteTodo_eq, Hdel. cbn zeta. rewrite Hav.
    eexists. split; [done|]. cbn. split_and!; [done | | |].
    + apply lookup_delete_eq.
    + intros key Hkey. by apply lookup_delete_ne.
    + intros Hm w'' merged apiTodos Hst Hget.
      rewrite queryFn_eq, Hget. intros [= <-] todo Hin Hid.
      apply elem_of_app in Hin as [Hin | Hin]; [done|]. exfalso.
      unfold localTodosOf in Hin. rewrite Hst in Hin. cbn in Hin.
      rewrite Hav in Hin. by eapply no_local_after_delete.
Qed.

(** C8, amended.  For a remote-origin task (local storage holds nothing
    under its identifier), the update operation forwards the payload to the
    remote API, returns the server's response and writes nothing locally;
    the next fetch-one for that identifier returns exactly what the remote
    API then serves for it.  So the updated completion flag is returned if
    and only if the remote API serves it, and a remote API that serves the
    task as it did before the update returns the task as it was. *)
Theorem remote_update_then_fetch_one w id (todoData response : jsobj)
    (s : server R) :
  PUT_todo R id todoData (remote w) = (Some response, s) →
  available (storage w) = true →
  items (storage w) !! todoKey id = None →
  ∃ w',
    updateTodo id todoData w = (Ok response, w') ∧
    remote w' = s ∧ storage w' = storage w ∧
    (∀ todo w'', getTodoById id w' = (Ok todo, w'') ↔
                 GET_todo R id s = Some todo ∧ w'' = w') ∧
    (GET_todo R id s = GET_todo R id (remote w) →
     (getTodoById id w').1 = (getTodoById id w).1).
Proof.
  intros Hput Hav Hnone. rewrite updateTodo_eq, Hput. cbn zeta.
  rewrite Hav, Hnone. eexists. split; [done|]. cbn. split_and!; [done..| |].
  - intros todo w''. rewrite getTodoById_eq. cbn.
    destruct (GET_todo R id s) as [served|]; split.
    + by intros [= -> <-].
    + by intros [[= ->] ->].
    + done.
    + by intros [? _].
  - intros Hsame. rewrite !getTodoById_eq. cbn. by rewrite Hsame.
Qed.

Lemma createTodo_stored_by_id w (todoData : jsobj) r w' :
  stored_by_id (items (storage w)) →
  createTodo todoData w = (r, w') → stored_by_id (items (storage w')).
Proof.
  intros Hm. rewrite createTodo_eq.
  destruct (POST_todos R _ _) as [[response|] s]; cbn zeta.
  - destruct (available (storage w)); intros [= <- <-]; [|done].
    cbn. apply stored_by_id_insert; [done|].
    unfold localTodoOf. rewrite lookup_insert_ne by done.
    apply lookup_insert_eq.
  - by intros [= <- <-].
Qed.

Lemma updateTodo_stored_by_id w id (todoData : jsobj) r w' :
  stored_by_id (items (storage w)) →
  todoData !! "id" = None ∨ todoData !! "id" = Some (JNum id) →
  updateTodo id todoData w = (r, w') → stored_by_id (items (storage w')).
Proof.
  intros Hm Hid. rewrite updateTodo_eq.
  destruct (PUT_todo R _ _ _) as [[response|] s]; cbn zeta;
    [|by intros [= <- <-]].
  destruct (available (storage w)); [|by intros [= <- <-]].
  destruct (items (storage w) !! todoKey id) as [localTodo|] eqn:Hk;
    intros [= <- <-]; [|done].
  cbn. apply stored_by_id_insert; [done|]. rewrite spread_lookup.
  destruct Hid as [-> | ->]; [|done].
  destruct (stored_by_id_lookup _ _ _ Hm Hk (todoKey_prefix id))
    as (i & Hi & Heq).
  apply todoKey_inj in Heq as <-. done.
Qed.

Lemma deleteTodo_stored_by_id w id r w' :
  stored_by_id (items (storage w)) →
  deleteTodo id w = (r, w') → stored_by_id (items (storage w')).
Proof.
  intros Hm. rewrite deleteTodo_eq.
  destruct (DELETE_todo R _ _) as [[[]|] s]; cbn zeta;
    [|by intros [= <- <-]].
  destruct (available (storage w)); intros [= <- <-]; [|done].
  cbn. by apply stored_by_id_delete.
Qed.

Lemma merged_ids_NoDup w (apiTodos : list jsobj) :
  stored_by_id (items (storage w)) →
  NoDup (ids apiTodos) →
  (∀ a b, a ∈ apiTodos → b ∈ localTodosOf w → a !! "id" ≠ b !! "id") →
  NoDup (ids (apiTodos ++ localTodosOf w)).
Proof.
  intros Hm Hapi Hdisj. unfold ids. rewrite fmap_app. apply NoDup_app.
  split_and!; [done | |].
  - intros i (a & -> & Ha)%list_elem_of_fmap (b & Hab & Hb)%list_elem_of_fmap.
    by eapply Hdisj.
  - unfold localTodosOf. destruct (available (storage w)); [|constructor].
    by apply local_ids_NoDup.
Qed.

Lemma created_once w (todoData localTodo : jsobj) w' (apiTodos : list jsobj) :
  stored_by_id (items (storage w)) →
  createTodo todoData w = (Ok localTodo, w') →
  GET_todos R (remote w') = Some apiTodos →
  (∀ a, a ∈ apiTodos → a !! "id" ≠ Some (JNum (clock w))) →
  ∃ merged, queryFn w' = (Ok merged, w') ∧
            localTodo ∈ merged ∧
            withId (clock w) merged = [localTodo].
Proof.
  intros Hm Hcreate Hget Hfresh.
  pose proof (createTodo_stored_by_id _ _ _ _ Hm Hcreate) as Hm'.
  rewrite createTodo_eq in Hcreate.
  destruct (POST_todos R _ _) as [[response|] s]; [|done].
  cbn zeta in Hcreate. destruct (available (storage w)) eqn:Hav; [|done].
  injection Hcreate as <- <-. rewrite queryFn_eq, Hget.
  eexists. split; [done|].
  assert (localTodoOf response (clock w) !! "id" = Some (JNum (clock w))) as Hid.
  { unfold localTodoOf. rewrite lookup_insert_ne by done. apply lookup_insert_eq. }
  assert (localTodoOf response (clock w) ∈
          localTodosOf (with_items
            (<[todoKey (clock w) := localTodoOf response (clock w)]>
               (items (storage w))) (with_remote s w))) as Hin.
  { unfold localTodosOf. cbn. rewrite Hav. apply elem_of_localValues.
    exists (todoKey (clock w)). split; [apply todoKey_prefix|].
    apply lookup_insert_eq. }
  split; [apply elem_of_app; by right|].
  unfold withId. rewrite filter_app.
  fold (withId (clock w) apiTodos). rewrite withId_none by done.
  apply withId_NoDup; [|done..].
  unfold localTodosOf. cbn. rewrite Hav. by apply local_ids_NoDup.
Qed.

(** C9, amended.  Let the tasks of the local store sit under the keys of
    their own identifiers.  Then the local tasks have pairwise distinct
    identifiers, and the merged collection fetch-all returns has pairwise
    distinct identifiers provided the remote list has and no remote task
    shares its identifier with a local one.  Create and delete keep the
    local store so keyed, and update does when the payload carries no
    identifier or the one being updated; fetch-all changes nothing.
    Creating a task and then fetching all yields a collection in which the
    created task is the one and only task with its identifier, provided the
    remote list has no task with that identifier. *)
Theorem unique_identifiers w :
  stored_by_id (items (storage w)) →
  NoDup (ids (localTodosOf w)) ∧
  (∀ apiTodos merged,
     GET_todos R (remote w) = Some apiTodos →
     queryFn w = (Ok merged, w) →
     NoDup (ids apiTodos) →
     (∀ a b, a ∈ apiTodos → b ∈ localTodosOf w → a !! "id" ≠ b !! "id") →
     NoDup (ids merged)) ∧
  (∀ (todoData : jsobj) r w',
     createTodo todoData w = (r, w') → stored_by_id (items (storage w'))) ∧
  (∀ id (todoData : jsobj) r w',
     todoData !! "id" = None ∨ todoData !! "id" = Some (JNum id) →
     updateTodo id todoData w = (r, w') → stored_by_id (items (storage w'))) ∧
  (∀ id r w',
     deleteTodo id w = (r, w') → stored_by_id (items (storage w'))) ∧
  (∀ r w', queryFn w = (r, w') → w' = w) ∧
  (∀ (todoData localTodo : jsobj) w' (apiTodos : list jsobj),
     createTodo todoData w = (Ok localTodo, w') →
     GET_todos R (remote w') = Some apiTodos →
     (∀ a, a ∈ apiTodos → a !! "id" ≠ Some (JNum (clock w))) →
     ∃ merged, queryFn w' = (Ok merged, w') ∧
               localTodo ∈ merged ∧
               withId (clock w) merged = [localTodo]).
Proof.
  intros Hm. split_and!.
  - unfold localTodosOf. destruct (available (storage w)); [|constructor].
    by apply local_ids_NoDup.
  - intros apiTodos merged Hget. rewrite queryFn_eq, Hget.
    intros [= <-]. by apply merged_ids_NoDup.
  - intros todoData r w'. by apply createTodo_stored_by_id.
  - intros id todoData r w'. by apply updateTodo_stored_by_id.
  - intros id r w'. by apply deleteTodo_stored_by_id.
  - intros r w'. rewrite queryFn_eq. by intros [= _ <-].
  - intros todoData localTodo w' apiTodos. by apply created_once.
Qed.

End DeleteAndIdentity.

(** ** The properties on the sample data *)

Section OnSample.

Import TodoService Sample.
#[local] Existing Instance Sample.runtime.

Local Abbreviation W := (World Simulated.api).

(** With the server unreachable nothing is created: no task is returned and
    the local store stays empty. *)
Lemma create_fails_with_remote :
  let w : W := world down ∅ true now in
  createTodo {["title" := JStr "Buy milk"]} w =
    (Throw "Failed to create todo", w) ∧
  items (storage w) = ∅.
Proof. split; reflexivity. Qed.

(** With the local store failing, its read rejects, and fetch-all still
    succeeds, with the remote list alone. *)
Lemma local_read_failure_swallowed :
  let w : W := world up store1 false now in
  iterate (λ _ _ (n : nat), S n) 0%nat w =
    (Throw "No available storage method found.", w) ∧
  queryFn w = (Ok [t1; t2; t4], w).
Proof. split; reflexivity. Qed.

(** With the server unreachable a task present in local storage is not
    removed. *)
Lemma delete_keeps_local_entry :
  let w : W := world down store1 true now in
  items (storage w) !! todoKey 1690000000000 = Some mine ∧
  deleteTodo 1690000000000 w =
    (Throw "Failed to delete todo with ID 1690000000000", w).
Proof. split; reflexivity. Qed.


(** On a server that keeps nothing of a write, the completion flag of a
    remote-origin task is updated, the update answers with the new flag,
    and the next fetch-one returns the task with the old flag. *)
Lemma simulated_update_not_served :
  let w : W := world up ∅ true now in
  let r := updateTodo 1 (TodoDetail.toggled t1) w in
  t1 !! "id" = Some (JNum 1) ∧
  t1 !! "completed" = Some (JBool false) ∧
  TodoDetail.toggled t1 !! "completed" = Some (JBool true) ∧
  r.1 = Ok (TodoDetail.toggled t1) ∧
  (getTodoById 1 r.2).1 = Ok t1.
Proof. repeat split; reflexivity. Qed.

(** Two ways to two tasks with one identifier in the merged collection: an
    update whose payload carries the identifier of another local task, and
    a creation at a time that is the identifier of a remote task. *)
Lemma identifier_collisions :
  (let w : W := world up store2 true now in
   let w' := (updateTodo 1690000000000 {["id" := JNum 1690000000001]} w).2 in
   (∃ merged, queryFn w = (Ok merged, w) ∧ NoDup (ids merged)) ∧
   ∃ merged, queryFn w' = (Ok merged, w') ∧
             length (withId 1690000000001 merged) = 2%nat) ∧
  (let w : W := world up ∅ true 1 in
   let r := createTodo {["title" := JStr "Buy milk"]} w in
   ∃ created merged,
     r.1 = Ok created ∧ queryFn r.2 = (Ok merged, r.2) ∧
     withId 1 merged = [t1; created]).
Proof.
  split; [split|].
  - eexists. split; [reflexivity|].
    refine (bool_decide_unpack _ _). by vm_compute.
  - eexists. split; [reflexivity|]. by vm_compute.
  - eexists _, _. repeat split; reflexivity.
Qed.

(** The created task takes its completion flag, its owning user and its
    title from the response: with a server that answers a creation with a
    task of its own, the task created for the title [Buy milk] is completed,
    owned by user 7 and titled [other]. *)
Lemma create_copies_response :
  let w : World Headstrong.api :=
    @Build_World Headstrong.api () {| items := ∅; available := true |} now in
  let r := createTodo {["title" := JStr "Buy milk"]} w in
  ∃ created,
    r.1 = Ok created ∧
    created !! "completed" = Some (JBool true) ∧
    created !! "userId" = Some (JNum 7) ∧
    created !! "title" = Some (JStr "other") ∧
    items (storage r.2) !! todoKey now = Some created.
Proof. eexists. repeat split; reflexivity. Qed.

(** *** Instances of the theorems *)

Lemma pagination_covers_filtered_sample :
  TodoList.filteredTodos [t1; t2; t4] "QUI" "pending" = Ok [t2] ∧
  paginated [t2].
Proof.
  split; [reflexivity|].
  apply (pagination_covers_filtered [t1; t2; t4] "QUI" "pending" [t2]).
  reflexivity.
Defined.

Lemma search_results_contain_query_sample :
  trim "QUI" ≠ "" ∧
  TodoList.filteredTodos [t1; t2; t4] "QUI" "all" = Ok [t2] ∧
  all_contain "QUI" [t2].
Proof.
  split; [by vm_compute|]. split; [reflexivity|].
  apply (proj1 (search_results_contain_query "QUI")
           ltac:(by vm_compute) [t1; t2; t4] "all" [t2]).
  reflexivity.
Defined.

Lemma create_after_remote_sample :
  let w : W := world up ∅ true now in
  let todoData : jsobj := {["title" := JStr "Buy milk"]} in
  ∃ localTodo w',
    createTodo todoData w = (Ok localTodo, w') ∧
    items (storage w') !! todoKey now = Some localTodo.
Proof.
  intros w todoData.
  destruct (proj2 (create_after_remote w todoData)
              (<["id" := JNum 4]> (createBody todoData)) up eq_refl eq_refl)
    as (localTodo & w' & Hc & _ & Hl & _).
  exists localTodo, w'. split; [exact Hc | exact Hl].
Defined.

Lemma fetch_all_failures_sample :
  (let w : W := world down store1 true now in
   queryFn w = (Throw "Failed to fetch todos", w)) ∧
  (let w : W := world up store1 false now in
   getLocalTodos w = (Ok [], w) ∧ queryFn w = (Ok [t1; t2; t4], w)).
Proof.
  split.
  - exact (proj1 (fetch_all_failures (world down store1 true now)) eq_refl).
  - destruct (proj2 (fetch_all_failures (world up store1 false now)) eq_refl)
      as [Hlocal Hq].
    split; [exact Hlocal | exact (Hq [t1; t2; t4] eq_refl)].
Defined.

Lemma delete_after_remote_sample :
  let w : W := world up store1 true now in
  ∃ w', deleteTodo 1690000000000 w = (Ok {["success" := JBool true]}, w') ∧
        items (storage w') !! todoKey 1690000000000 = None.
Proof.
  intros w.
  destruct (proj2 (delete_after_remote w 1690000000000) up eq_refl eq_refl)
    as (w' & Hd & _ & Hgone & _).
  exists w'. split; [exact Hd | exact Hgone].
Defined.


Lemma created_task_fields_sample :
  let w : W := world up ∅ true now in
  let todoData : jsobj :=
    <["title" := JStr "Buy milk"]> (<["completed" := JBool true]>
      (<["userId" := JNum 7]> {["id" := JNum 3]})) in
  ∃ localTodo w',
    createTodo todoData w = (Ok localTodo, w') ∧
    localTodo !! "isLocal" = Some (JBool true) ∧
    localTodo !! "id" = Some (JNum now) ∧
    localTodo !! "completed" = Some (JBool false) ∧
    localTodo !! "userId" = Some (JNum 1) ∧
    localTodo !! "title" = Some (JStr "Buy milk").
Proof.
  intros w todoData.
  destruct (created_task_fields w todoData
              (<["id" := JNum 4]> (createBody todoData)) up eq_refl eq_refl)
    as (localTodo & w' & Hc & Hlocal & Hid & _ & Hecho & _).
  destruct Hecho as (Hcompleted & Huser & Htitle).
  { refine (bool_decide_unpack _ _). by vm_compute. }
  exists localTodo, w'. split; [exact Hc|]. split; [exact Hlocal|].
  split; [exact Hid|]. split; [exact Hcompleted|]. split; [exact Huser|].
  exact (Htitle (JStr "Buy milk") eq_refl).
Defined.

Lemma fetch_all_concatenates_sample :
  let w : W := world up store2 true now in
  GET_todos Simulated.api (remote w) = Some [t1; t2; t4] ∧
  ∃ localTodos merged,
    getLocalTodos w = (Ok localTodos, w) ∧
    queryFn w = (Ok merged, w) ∧
    merged = [t1; t2; t4] ++ localTodos ∧
    length merged = (3 + length localTodos)%nat.
Proof.
  intros w. split; [reflexivity|].
  destruct (fetch_all_concatenates w [t1; t2; t4] eq_refl)
    as (localTodos & merged & _ & Hlocal & Hq & Hm & _ & _ & _ & Hlen).
  exists localTodos, merged.
  split; [exact Hlocal|]. split; [exact Hq|]. split; [exact Hm|]. exact Hlen.
Defined.

Lemma remote_update_then_fetch_one_sample :
  let w : W := world up ∅ true now in
  let toggled : jsobj := TodoDetail.toggled t1 in
  ∃ w', updateTodo 1 toggled w = (Ok toggled, w') ∧
        storage w' = storage w ∧
        (getTodoById 1 w').1 = (getTodoById 1 w).1.
Proof.
  intros w toggled.
  destruct (remote_update_then_fetch_one w 1 toggled toggled up
              eq_refl eq_refl eq_refl)
    as (w' & Hu & _ & Hs & _ & Hsame).
  exists w'. split; [exact Hu|]. split; [exact Hs|]. apply Hsame.
  reflexivity.
Defined.

Lemma unique_identifiers_sample :
  let w : W := world up store2 true now in
  stored_by_id (items (storage w)) ∧ NoDup (ids (localTodosOf w)).
Proof.
  intros w.
  assert (stored_by_id (items (storage w))) as Hm.
  { refine (bool_decide_unpack _ _). by vm_compute. }
  split; [exact Hm|]. exact (proj1 (unique_identifiers w Hm)).
Defined.

End OnSample.

(** * Further properties of the code *)

(** ** Trimming *)

Section Trimming.

Implicit Types (s t w pre post : string) (ws : list string).

Lemma rev_app_append s acc : String.rev_app s acc = String.rev s +:+ acc.
Proof.
  unfold String.rev. revert acc. induction s as [|a s IH]; intros acc; [done|].
  cbn [String.rev_app]. rewrite IH, (IH (String a "")).
  by rewrite append_assoc.
Qed.

Lemma rev_cons a s : String.rev (String a s) = String.rev s +:+ String a "".
Proof. unfold String.rev at 1. cbn [String.rev_app]. apply rev_app_append. Qed.

Lemma rev_append s t : String.rev (s +:+ t) = String.rev t +:+ String.rev s.
Proof.
  induction s as [|a s IH]; [by rewrite append_nil_l, append_nil_r|].
  by rewrite append_cons, !rev_cons, IH, append_assoc.
Qed.

Lemma rev_involutive s : String.rev (String.rev s) = s.
Proof.
  induction s as [|a s IH]; [done|]. by rewrite rev_cons, rev_append, IH.
Qed.

Lemma length_append s t :
  String.length (s +:+ t) = (String.length s + String.length t)%nat.
Proof. induction s as [|a s IH]; [done|]. rewrite append_cons. cbn. by rewrite IH. Qed.

Lemma dropPrefix_spec p s r : dropPrefix p s = Some r ↔ s = p +:+ r.
Proof.
  revert s. induction p as [|a p IH]; intros s; cbn [dropPrefix].
  - rewrite append_nil_l. split; congruence.
  - destruct s as [|b s]; [by rewrite append_cons|].
    rewrite append_cons. destruct (Ascii.eqb_spec a b) as [->|Hne].
    + rewrite IH. split; congruence.
    + split; [done | congruence].
Qed.

Lemma stripOne_Some ws s r :
  stripOne ws s = Some r → ∃ w, w ∈ ws ∧ s = w +:+ r.
Proof.
  induction ws as [|w ws IH]; [done|]. cbn [stripOne].
  destruct (dropPrefix w s) as [r'|] eqn:Hw.
  - intros [= ->]. exists w. split; [left | by apply dropPrefix_spec].
  - intros (w' & Hin & Hs)%IH. exists w'. split; [by right | done].
Qed.

Lemma stripOne_None ws s :
  stripOne ws s = None ↔ ∀ w r, w ∈ ws → s ≠ w +:+ r.
Proof.
  induction ws as [|w ws IH]; cbn [stripOne].
  - split; [by intros _ w r ?%not_elem_of_nil | done].
  - destruct (dropPrefix w s) as [r'|] eqn:Hw.
    + split; [done|]. intros H. apply dropPrefix_spec in Hw.
      by destruct (H w r' ltac:(left)).
    + rewrite IH. split.
      * intros H w' r [-> | Hin]%elem_of_cons; [|by apply H].
        intros Hs%dropPrefix_spec. congruence.
      * intros H w' r Hin. apply H. by right.
Qed.

(** Stripping removes a prefix. *)
Lemma strip_prefix ws n s : ∃ pre, s = pre +:+ strip ws n s.
Proof.
  revert s. induction n as [|n IH]; intros s; cbn [strip]; [by exists ""|].
  destruct (stripOne ws s) as [r|] eqn:Hs; [|by exists ""].
  apply stripOne_Some in Hs as (w & _ & ->).
  destruct (IH r) as [pre Hr]. exists (w +:+ pre).
  by rewrite append_assoc, <- Hr.
Qed.

(** With a unit of fuel for every byte, stripping goes on until no element
    of the list is a prefix. *)
Lemma strip_done ws n s :
  (∀ w, w ∈ ws → w ≠ "") → (String.length s ≤ n)%nat →
  stripOne ws (strip ws n s) = None.
Proof.
  intros Hws. revert s. induction n as [|n IH]; intros s Hn; cbn [strip].
  - destruct s; [|cbn in Hn; lia].
    apply stripOne_None. intros w r Hin. specialize (Hws w Hin).
    destruct w; [done | by rewrite append_cons].
  - destruct (stripOne ws s) as [r|] eqn:Hs; [|done].
    apply IH. apply stripOne_Some in Hs as (w & Hin & ->).
    specialize (Hws w Hin). rewrite length_append in Hn.
    destruct w; [done | cbn in Hn; lia].
Qed.

Lemma strip_fixed ws n s : stripOne ws s = None → strip ws n s = s.
Proof. intros H. destruct n; [done|]. cbn [strip]. by rewrite H. Qed.

Lemma whiteSpace_nonempty w : w ∈ whiteSpace → w ≠ "".
Proof.
  revert w. apply Forall_forall.
  refine (bool_decide_unpack _ _). by vm_compute.
Qed.

Lemma rev_nonempty w : w ≠ "" → String.rev w ≠ "".
Proof. intros H Hr. apply H. by rewrite <- (rev_involutive w), Hr. Qed.

Lemma begins_with_space_stripOne s :
  begins_with_space s ↔ stripOne whiteSpace s ≠ None.
Proof.
  unfold begins_with_space. split.
  - intros (w & r & Hin & ->) H.
    by eapply (proj1 (stripOne_None _ _) H w r).
  - destruct (stripOne whiteSpace s) as [r|] eqn:Hs; [|done].
    intros _. apply stripOne_Some in Hs as (w & Hin & ->). by exists w, r.
Qed.

Lemma ends_with_space_stripOne s :
  ends_with_space s ↔ stripOne (String.rev <$> whiteSpace) (String.rev s) ≠ None.
Proof.
  unfold ends_with_space. split.
  - intros (w & r & Hin & ->) H.
    eapply (proj1 (stripOne_None _ _) H (String.rev w) (String.rev r)).
    + by apply list_elem_of_fmap_2.
    + apply rev_append.
  - destruct (stripOne _ _) as [r|] eqn:Hs; [|done].
    intros _. apply stripOne_Some in Hs as (w' & Hin & Hs).
    apply list_elem_of_fmap in Hin as (w & -> & Hin).
    exists w, (String.rev r). split; [done|].
    by rewrite <- (rev_involutive s), Hs, rev_append, rev_involutive.
Qed.

(** [trimStart] removes a prefix and leaves no white space at the start;
    [trimEnd] removes a suffix and leaves none at the end. *)
Lemma trimStart_split s :
  ∃ pre, s = pre +:+ trimStart s ∧ ¬ begins_with_space (trimStart s).
Proof.
  unfold trimStart. destruct (strip_prefix whiteSpace (String.length s) s) as [pre H].
  exists pre. split; [done|]. rewrite begins_with_space_stripOne.
  intros Hn. apply Hn, strip_done; [apply whiteSpace_nonempty | done].
Qed.

Lemma length_rev s : String.length (String.rev s) = String.length s.
Proof.
  induction s as [|a s IH]; [done|].
  rewrite rev_cons, length_append, IH. cbn. lia.
Qed.

Lemma trimEnd_split s :
  ∃ post, s = trimEnd s +:+ post ∧ ¬ ends_with_space (trimEnd s).
Proof.
  unfold trimEnd.
  destruct (strip_prefix (String.rev <$> whiteSpace) (String.length s) (String.rev s))
    as [pre H].
  exists (String.rev pre). split.
  - by rewrite <- rev_append, <- H, rev_involutive.
  - rewrite ends_with_space_stripOne, rev_involutive. intros Hn. apply Hn.
    apply strip_done; [|by rewrite length_rev].
    intros w' (w & -> & Hin)%list_elem_of_fmap.
    by apply rev_nonempty, whiteSpace_nonempty.
Qed.

(** [trim] removes a prefix and a suffix and leaves a string with no white
    space at either end. *)
Lemma trim_split s :
  ∃ pre post, s = pre +:+ trim s +:+ post ∧ unpadded (trim s).
Proof.
  unfold trim.
  destruct (trimStart_split s) as (pre & Hs & Hb).
  destruct (trimEnd_split (trimStart s)) as (post & Ht & He).
  exists pre, post. split; [by rewrite <- Ht|]. split; [|done].
  intros (w & r & Hin & Hw). apply Hb. exists w, (r +:+ post).
  split; [done|]. by rewrite Ht at 1; rewrite Hw, append_assoc.
Qed.

Lemma trim_unpadded s : unpadded s → trim s = s.
Proof.
  intros [Hb He]. unfold trim, trimStart, trimEnd.
  rewrite begins_with_space_stripOne in Hb.
  rewrite ends_with_space_stripOne in He.
  rewrite (strip_fixed whiteSpace _ s) by (by destruct (stripOne whiteSpace s); [destruct Hb|]).
  rewrite strip_fixed; [apply rev_involutive|].
  by destruct (stripOne _ (String.rev s)); [destruct He|].
Qed.

(** Trimming twice is trimming once. *)
Lemma trim_idemp s : trim (trim s) = trim s.
Proof. apply trim_unpadded. by destruct (trim_split s) as (? & ? & _ & ?). Qed.

(** Every white-space character of ECMAScript, alone, trims to nothing. *)
Lemma trim_whiteSpace w : w ∈ whiteSpace → trim w = "".
Proof.
  revert w. apply Forall_forall.
  refine (bool_decide_unpack _ _). by vm_compute.
Qed.

End Trimming.

(** ** The length of a string *)

Section CodeUnits.
Local Open Scope N_scope.

Lemma N_of_byte (n : N) : n < 256 → Ascii.N_of_ascii (byte n) = n.
Proof. apply Ascii.N_ascii_embedding. Qed.

Lemma codeUnits_byte (n : N) :
  n < 256 →
  codeUnits (byte n) =
    if n <? 0x80 then 1%nat else if n <? 0xC0 then 0%nat
    else if n <? 0xF0 then 1%nat else 2%nat.
Proof. intros Hn. unfold codeUnits. by rewrite N_of_byte. Qed.

(** A character takes one code unit, and two beyond [U+FFFF]. *)
Lemma strLength_utf8 (cp : N) :
  cp < 0x110000 →
  strLength (utf8 cp) = if cp <? 0x10000 then 1%nat else 2%nat.
Proof.
  intros Hcp. unfold utf8.
  pose proof (N.mod_lt cp 0x40 ltac:(done)) as H0.
  pose proof (N.mod_lt (cp / 0x40) 0x40 ltac:(done)) as H1.
  pose proof (N.mod_lt (cp / 0x1000) 0x40 ltac:(done)) as H2.
  assert (cp < 0x800 → 2 ≤ cp / 0x40 ∨ cp < 0x80) as Hlow.
  { intros _. destruct (N.ltb_spec cp 0x80); [by right | left].
    apply N.div_le_lower_bound; lia. }
  assert (cp < 0x800 → cp / 0x40 < 0x20) as Hq1
    by (intros; apply N.Div0.div_lt_upper_bound; lia).
  assert (cp < 0x10000 → cp / 0x1000 < 0x10) as Hq2
    by (intros; apply N.Div0.div_lt_upper_bound; lia).
  assert (cp / 0x40000 < 0x5) as Hq3 by (apply N.Div0.div_lt_upper_bound; lia).
  set (b0 := cp mod 0x40) in *. set (b1 := cp / 0x40 mod 0x40) in *.
  set (b2 := cp / 0x1000 mod 0x40) in *. set (q1 := cp / 0x40) in *.
  set (q2 := cp / 0x1000) in *. set (q3 := cp / 0x40000) in *.
  clearbody b0 b1 b2 q1 q2 q3.
  destruct (N.ltb_spec cp 0x80); [|destruct (N.ltb_spec cp 0x800);
    [|destruct (N.ltb_spec cp 0x10000)]]; cbn [strLength];
    rewrite !codeUnits_byte by lia;
    repeat (match goal with
            | |- context [N.ltb ?a ?b] => destruct (N.ltb_spec a b); try lia
            end); done.
Qed.
End CodeUnits.

(** ** The filters of the list view *)

Section ViewFilters.

Import TodoList.
Context {J : Runtime}.


Lemma filterE_sublist {A : Type} (p : A → result bool) (l filtered : list A) :
  filterE p l = Ok filtered → sublist filtered l.
Proof.
  revert filtered. induction l as [|y l IH]; intros filtered; cbn [filterE].
  - by intros [= <-].
  - destruct (p y) as [b|]; [|done]. cbn.
    destruct (filterE p l) as [r|]; [|done]. cbn.
    intros [= <-]. destruct b; [apply sublist_skip | apply sublist_cons]; by apply IH.
Qed.


Lemma filterE_Throw_iff {A : Type} (p : A → result bool) (l : list A) :
  (∃ msg, filterE p l = Throw msg) ↔ ∃ x, x ∈ l ∧ ∃ msg, p x = Throw msg.
Proof.
  induction l as [|y l IH]; cbn [filterE].
  - split; [by intros [? ?] | by intros (? & ?%not_elem_of_nil & _)].
  - destruct (p y) as [b|m] eqn:Hy; cbn.
    + destruct (filterE p l) as [r|m] eqn:Hr; cbn.
      * split; [by intros [? ?]|].
        intros (x & [-> | Hin]%elem_of_cons & msg & Hx); [congruence|].
        destruct (proj2 IH) as [? ?]; [|done]. by exists x; eauto.
      * split; [|by eauto]. intros _.
        destruct (proj1 IH) as (x & Hin & Hx); [by eauto|].
        exists x. split; [by right | done].
    + split; [|by eauto]. intros _. exists y. split; [left | by eauto].
Qed.

Lemma List_filter_sublist {A : Type} (f : A → bool) (l : list A) :
  sublist (List.filter f l) l.
Proof.
  induction l as [|y l IH]; [constructor|]. cbn.
  destruct (f y); by constructor.
Qed.

Lemma elem_of_List_filter_iff {A : Type} (f : A → bool) (l : list A) (x : A) :
  x ∈ List.filter f l ↔ x ∈ l ∧ f x = true.
Proof. by rewrite !list_elem_of_In, filter_In. Qed.

Lemma List_filter_partition {A : Type} (f : A → bool) (l : list A) :
  List.filter f l ++ List.filter (λ x, negb (f x)) l ≡ₚ l.
Proof.
  induction l as [|y l IH]; [done|]. cbn. destruct (f y); cbn.
  - by rewrite IH.
  - by rewrite <- Permutation_middle, IH.
Qed.

Lemma titleIncludes_throws (query : string) (todo : jsobj) :
  (∃ msg, titleIncludes query todo = Throw msg) ↔ ¬ titled todo.
Proof.
  unfold titleIncludes, titled.
  destruct (todo !! "title") as [[| | |s]|]; split;
    try (by intros _ [? [=]]); try (by intros _; eexists).
  - by intros [? [=]].
  - intros H. destruct H. by eexists.
Qed.


(** The status step of [filteredTodos], on its own. *)
Lemma status_step_elem (filterStatus : string) (l filtered : list jsobj) :
  (if String.eqb filterStatus "completed"
   then Ok (List.filter (λ todo : jsobj, truthy (todo !! "completed")) l)
   else if String.eqb filterStatus "pending"
   then Ok (List.filter (λ todo : jsobj, negb (truthy (todo !! "completed"))) l)
   else Ok l) = Ok filtered →
  sublist filtered l ∧
  ∀ todo, todo ∈ filtered ↔ todo ∈ l ∧ statusMatches filterStatus todo.
Proof.
  unfold statusMatches.
  destruct (String.eqb filterStatus "completed");
    [|destruct (String.eqb filterStatus "pending")]; intros [= <-].
  - split; [apply List_filter_sublist|]. intros todo.
    by rewrite elem_of_List_filter_iff.
  - split; [apply List_filter_sublist|]. intros todo.
    by rewrite elem_of_List_filter_iff, negb_true_iff.
  - split; [done|]. intros todo. tauto.
Qed.


(** X2.  Filtering only removes tasks: the filtered list is the collection
    with some tasks left out, the others in their order. *)
Theorem filtered_keeps_order
    (todos : list jsobj) (searchQuery filterStatus : string)
    (filtered : list jsobj) :
  filteredTodos todos searchQuery filterStatus = Ok filtered →
  sublist filtered todos.
Proof.
  unfold filteredTodos. destruct (nonempty (trim searchQuery)).
  - destruct (filterE _ todos) as [r|] eqn:Hr; [|done]. cbn.
    intros [Hsub _]%status_step_elem.
    etrans; [done|]. by eapply filterE_sublist.
  - cbn. by intros [Hsub _]%status_step_elem.
Qed.

(** X3.  Under one search string the completed tasks and the pending tasks
    split the unfiltered result: the two filters succeed whenever the status
    [all] does, and their results together are a rearrangement of its result,
    so the two counts add up to its count. *)
Theorem status_filters_split
    (todos : list jsobj) (searchQuery : string) (all : list jsobj) :
  filteredTodos todos searchQuery "all" = Ok all →
  ∃ completed pending,
    filteredTodos todos searchQuery "completed" = Ok completed ∧
    filteredTodos todos searchQuery "pending" = Ok pending ∧
    completed ++ pending ≡ₚ all ∧
    (length completed + length pending = length all)%nat.
Proof.
  unfold filteredTodos.
  destruct (if nonempty (trim searchQuery) then _ else _) as [r|]; [|done].
  cbn. intros [= <-]. eexists _, _. split; [done|]. split; [done|].
  pose proof (List_filter_partition
                (λ todo : jsobj, truthy (todo !! "completed")) r) as Hp.
  split; [done|]. by rewrite <- length_app, Hp.
Qed.

(** X4.  The list view's filter throws exactly when a search is active (the
    search string has a character that is not white space) and some task of
    the collection has no string for a title; with a blank search string it
    never throws. *)
Theorem filter_throws_iff
    (todos : list jsobj) (searchQuery filterStatus : string) :
  (∃ msg, filteredTodos todos searchQuery filterStatus = Throw msg) ↔
  trim searchQuery ≠ "" ∧ ∃ todo, todo ∈ todos ∧ ¬ titled todo.
Proof.
  unfold filteredTodos. destruct (nonempty (trim searchQuery)) eqn:Hq.
  - apply nonempty_true in Hq.
    destruct (filterE _ todos) as [r|m] eqn:Hr; cbn.
    + split.
      * intros [msg H]. by repeat case_match.
      * intros (_ & todo & Hin & Ht).
        apply (titleIncludes_throws searchQuery) in Ht.
        destruct (proj2 (filterE_Throw_iff (titleIncludes searchQuery) todos))
          as [msg Hmsg]; [by eauto|]. congruence.
    + split; [|by eauto]. intros _. split; [done|].
      destruct (proj1 (filterE_Throw_iff (titleIncludes searchQuery) todos))
        as (todo & Hin & Hx); [by eauto|].
      exists todo. split; [done|]. by apply (titleIncludes_throws searchQuery).
  - cbn. split.
    + intros [msg H]. by repeat case_match.
    + intros [Hne _]. apply nonempty_true in Hne. congruence.
Qed.


End ViewFilters.

(** ** Pages and the pagination bar *)

Section Pages.

Local Open Scope Z_scope.
Import TodoList.

(** X6.  Every page from 1 to the page count shows at least one task and at
    most ten: ten on every page before the last, and on the last the tasks
    that remain. *)
Theorem page_lengths (filtered : list jsobj) (p : Z) :
  1 ≤ p ≤ totalPages filtered →
  Z.of_nat (length (currentTodos filtered p))
    = Z.min 10 (totalTodos filtered - (p - 1) * 10) ∧
  1 ≤ Z.of_nat (length (currentTodos filtered p)) ≤ 10.
Proof.
  intros Hp.
  pose proof (ceil_div_sandwich (totalTodos filtered) todosPerPage eq_refl) as H.
  fold (totalPages filtered) in H. unfold todosPerPage, totalTodos in *.
  rewrite currentTodos_within by lia. rewrite length_take, length_drop. lia.
Qed.

(** X7.  A page number past the page count shows nothing, whatever the list
    holds, and so does page 0: the view keeps its page number when the list
    shrinks, and then shows an empty page. *)
Theorem page_outside_is_empty (filtered : list jsobj) (p : Z) :
  totalPages filtered < p ∨ p = 0 →
  currentTodos filtered p = [].
Proof.
  pose proof (ceil_div_sandwich (totalTodos filtered) todosPerPage eq_refl) as H.
  fold (totalPages filtered) in H. unfold todosPerPage, totalTodos in *.
  pose proof (totalPages_nonneg filtered) as Hnn.
  intros [Hp | ->].
  - rewrite currentTodos_within by lia. rewrite drop_ge by lia. apply take_nil.
  - unfold currentTodos, endIndex, startIndex, todosPerPage, slice.
    change ((0 - 1) * 10 <? 0) with true.
    change ((0 - 1) * 10 + 10 <? 0) with false. cbn match.
    replace (Z.to_nat (Z.max (Z.min ((0 - 1) * 10 + 10) _ - _) 0)) with 0%nat by lia.
    done.
Qed.

(** Decides one comparison of the goal, keeping what it says. *)
Ltac decide_test :=
  match goal with
  | |- context [(?a =? ?b)] => destruct (Z.eqb_spec a b)
  | |- context [(?a <=? ?b)] => destruct (Z.leb_spec a b)
  | |- context [(?a >? ?b)] => destruct (Z.gtb_spec a b)
  | |- context [(?a <? ?b)] => destruct (Z.ltb_spec a b)
  end.

Lemma pageItemAt_button (totalPages currentPage index page : Z) (b : bool) :
  pageItemAt totalPages currentPage index = PageButton page b →
  page = index + 1 ∧ b = (page =? currentPage) ∧
  (page = 1 ∨ page = totalPages ∨ Z.abs (page - currentPage) ≤ 1).
Proof.
  unfold pageItemAt. destruct (showPage _ _ _) eqn:Hs; cbn.
  - intros [= <- <-]. split_and!; [done..|]. unfold showPage in Hs.
    apply orb_true_iff in Hs as [[?%Z.eqb_eq | ?%Z.eqb_eq]%orb_true_iff | ?%Z.leb_le];
      auto.
  - by repeat case_match.
Qed.

Lemma pageItemAt_ellipsis (totalPages currentPage index : Z) :
  pageItemAt totalPages currentPage index = Ellipsis →
  index = 1 ∨ index = totalPages - 2.
Proof.
  unfold pageItemAt. destruct (showPage _ _ _); cbn; [done|].
  destruct (Z.eqb_spec (index + 1) 2); cbn.
  - intros _. left. lia.
  - destruct (Z.eqb_spec (index + 1) (totalPages - 1)); cbn.
    + intros _. right. lia.
    + done.
Qed.

(** X8.  While the current page is between 1 and the page count, every
    control of the pagination bar that can be pressed (the previous and next
    buttons when enabled, the page buttons that are rendered) asks for a page
    between 1 and the page count. *)
Theorem pagination_clicks_stay_in_range (totalPages currentPage : Z)
    (c : control) (page : Z) :
  1 ≤ currentPage ≤ totalPages →
  clickTarget totalPages currentPage c = Some page →
  1 ≤ page ≤ totalPages.
Proof.
  intros Hc. unfold clickTarget. destruct (totalPages >? 1); [|done]. cbn.
  destruct c as [| |index].
  - destruct (Z.eqb_spec currentPage 1); [done|]. intros [= <-]. lia.
  - destruct (Z.eqb_spec currentPage totalPages); [done|]. intros [= <-]. lia.
  - case_bool_decide as Hi; [|done].
    destruct (pageItemAt _ _ _) as [p b| |] eqn:Hitem; [|done..].
    intros [= <-]. apply pageItemAt_button in Hitem as [-> _]. lia.
Qed.

Lemma length_filter_fmap {A B : Type} (f : A → B) (P : B → Prop)
    `{!∀ x, Decision (P x)} (l : list A) :
  length (filter P (f <$> l)) = length (filter (λ x, P (f x)) l).
Proof.
  induction l as [|x l IH]; [done|].
  rewrite fmap_cons, !filter_cons. case_decide; cbn; by rewrite IH.
Qed.

Lemma length_filter_bounded (P : Z → Prop) `{!∀ x, Decision (P x)}
    (m n : Z) (candidates : list Z) :
  (∀ i, P i → i ∈ candidates) →
  (length (filter P (seqZ m n)) ≤ length candidates)%nat.
Proof.
  intros Hc. apply submseteq_length, NoDup_submseteq.
  - apply NoDup_filter, NoDup_seqZ.
  - intros i [Hi _]%list_elem_of_filter. by apply Hc.
Qed.

(** X9.  However many pages there are, the pagination bar renders at most
    five page buttons and at most two ellipses; and while the current page is
    between 1 and the page count, the first page, the last page and the
    current page are among the buttons, the current one marked as such. *)
Theorem pagination_bar_bounded (totalPages currentPage : Z) :
  (length (filter (λ i, is_button i = true) (pageItems totalPages currentPage))
     ≤ 5)%nat ∧
  (length (filter (λ i, is_ellipsis i = true) (pageItems totalPages currentPage))
     ≤ 2)%nat ∧
  (1 ≤ currentPage ≤ totalPages →
   PageButton 1 (1 =? currentPage) ∈ pageItems totalPages currentPage ∧
   PageButton totalPages (totalPages =? currentPage)
     ∈ pageItems totalPages currentPage ∧
   PageButton currentPage true ∈ pageItems totalPages currentPage).
Proof.
  unfold pageItems. split_and!.
  - rewrite length_filter_fmap.
    apply (length_filter_bounded _ _ _
             [0; totalPages - 1; currentPage - 2; currentPage - 1; currentPage]).
    intros i Hi. destruct (pageItemAt _ _ i) as [p b| |] eqn:Hitem; [|done..].
    apply pageItemAt_button in Hitem as (-> & _ & Hshow).
    rewrite !elem_of_cons. lia.
  - rewrite length_filter_fmap.
    apply (length_filter_bounded _ _ _ [1; totalPages - 2]).
    intros i Hi. destruct (pageItemAt _ _ i) as [p b| |] eqn:Hitem; [done| |done].
    apply pageItemAt_ellipsis in Hitem. rewrite !elem_of_cons. lia.
  - intros Hc. split_and!; apply list_elem_of_fmap.
    + exists 0. split; [|apply elem_of_seqZ; lia].
      unfold pageItemAt, showPage. by cbn.
    + exists (totalPages - 1). split; [|apply elem_of_seqZ; lia].
      unfold pageItemAt, showPage.
      replace (totalPages - 1 + 1) with totalPages by lia.
      by rewrite Z.eqb_refl, orb_true_r.
    + exists (currentPage - 1). split; [|apply elem_of_seqZ; lia].
      unfold pageItemAt, showPage.
      replace (currentPage - 1 + 1) with currentPage by lia.
      by rewrite Z.sub_diag, Z.eqb_refl, orb_true_r.
Qed.

(** X10.  An ellipsis stands for at least two hidden pages.  With the current
    page between 1 and the page count, the second position is an ellipsis
    exactly when the current page is 5 or more, and the position before the
    last exactly when the current page is at least four below the page
    count; when a single page is hidden (current page 4, or three below the
    page count) its position renders nothing at all. *)
Theorem ellipsis_marks_two_or_more (totalPages currentPage : Z) :
  1 ≤ currentPage ≤ totalPages →
  (pageItemAt totalPages currentPage 1 = Ellipsis ↔ 5 ≤ currentPage) ∧
  (pageItemAt totalPages currentPage (totalPages - 2) = Ellipsis ↔
     currentPage ≤ totalPages - 4) ∧
  (currentPage = 4 → pageItemAt totalPages currentPage 1 = NoItem) ∧
  (currentPage = totalPages - 3 →
     pageItemAt totalPages currentPage (totalPages - 2) = NoItem).
Proof.
  intros Hc. unfold pageItemAt, showPage.
  replace (totalPages - 2 + 1) with (totalPages - 1) by lia.
  change (1 + 1) with 2.
  split_and!; [| |intros ->|intros ->];
    repeat (decide_test; try (exfalso; lia)); cbn;
    try split; try done; try lia.
Qed.

End Pages.

(** ** The state of the list view *)

Section ViewState.

Local Open Scope Z_scope.
Import TodoList.

(** X11.  A change of the search string or of the status filter, by typing,
    by choosing a status or by clearing the search, puts the view on page 1,
    which shows the first ten tasks of whatever the filter yields; setting
    either to the value it has changes nothing, the page included. *)
Theorem filter_change_shows_first_page (v v' : viewState) (value : string) :
  v' = setSearchQuery value v ∨ v' = setFilterStatus value v ∨ v' = clearSearch v →
  (searchQuery v' ≠ searchQuery v ∨ filterStatus v' ≠ filterStatus v →
     currentPage v' = 1 ∧
     ∀ filtered, currentTodos filtered (currentPage v') = take 10 filtered) ∧
  (searchQuery v' = searchQuery v ∧ filterStatus v' = filterStatus v → v' = v).
Proof.
  intros [-> | [-> | ->]];
    unfold clearSearch, setSearchQuery, setFilterStatus, resetPageEffect; cbn;
    case_decide as Hd; cbn; split.
  all: try (intros [Hq | Hs]; destruct Hd; congruence).
  all: try (intros _; destruct v, Hd; cbn in *; congruence).
  all: try (intros _; split; [done|]; intros filtered;
            by rewrite currentTodos_within by lia).
  all: intros [Hq Hs]; destruct Hd; by split.
Qed.

End ViewState.

(** ** The handlers of the form and of the items *)

Section Handlers.

Import TodoService.
Context {R : RemoteApi}.

(** X12.  Submitting the creation form never throws.  The callback is run
    only when the trimmed title has a length of three at least (in UTF-16
    code units, as [length] counts), with a task
    that has nothing but that title, which has no white space at either end;
    the form is emptied and closed when the callback resolves, and keeps the
    typed title and shows an error when it rejects.  A shorter title leaves
    the world untouched and the form as it is but for the error. *)
Theorem submit_sends_trimmed_title
    (onCreateTodo : jsobj → Async R unit) (f : CreateTodo.formState)
    (w : World R) :
  ∃ f' w',
    CreateTodo.handleSubmit onCreateTodo f w = (Ok f', w') ∧
    (((strLength (trim (CreateTodo.title f)) < 3)%nat ∧ w' = w ∧
      CreateTodo.title f' = CreateTodo.title f ∧
      CreateTodo.isFormOpen f' = CreateTodo.isFormOpen f ∧
      CreateTodo.error f' ≠ "") ∨
     ((3 ≤ strLength (trim (CreateTodo.title f)))%nat ∧
      unpadded (trim (CreateTodo.title f)) ∧
      ∃ r,
        onCreateTodo {["title" := JStr (trim (CreateTodo.title f))]} w = (r, w') ∧
        match r with
        | Ok _ =>
            f' = {| CreateTodo.isFormOpen := false; CreateTodo.title := "";
                    CreateTodo.error := "" |}
        | Throw _ =>
            CreateTodo.title f' = CreateTodo.title f ∧
            CreateTodo.isFormOpen f' = CreateTodo.isFormOpen f ∧
            CreateTodo.error f' = "Failed to create todo. Please try again."
        end)).
Proof.
  unfold CreateTodo.handleSubmit.
  destruct (String.eqb_spec (trim (CreateTodo.title f)) "") as [He | Hne].
  - eexists _, _. split; [reflexivity|]. left. rewrite He. cbn. split_and!; done || lia.
  - destruct (Nat.ltb_spec (strLength (trim (CreateTodo.title f))) 3).
    + eexists _, _. split; [reflexivity|]. left. by split_and!.
    + open_async.
      destruct (onCreateTodo _ w) as [[[]|msg] w1] eqn:Hcb;
        eexists _, _; (split; [reflexivity|]); right;
        (split; [done|]);
        (split; [by destruct (trim_split (CreateTodo.title f)) as (? & ? & _ & ?)|]);
        eexists; (split; [done|]); done.
Qed.

(** X13.  Saving an edit never throws.  A blank title is refused with an
    alert and nothing else; a title equal, once trimmed, to the task's title
    only leaves the edit mode; in both cases the callback is not run.
    Otherwise the callback is run with the task's identifier and the task in
    which the title alone is replaced by the trimmed text; the item leaves
    the edit mode when the callback resolves, stays in it with an alert when
    it rejects, and is not loading afterwards. *)
Theorem save_sends_changed_title
    (todo : jsobj) (onEdit : option jsval → jsobj → Async R unit)
    (i : TodoItem.itemState) (w : World R) :
  let edited := trim (TodoItem.editTitle i) in
  ∃ i' alerts w',
    TodoItem.handleSave todo onEdit i w = (Ok (i', alerts), w') ∧
    ((edited = "" ∧ w' = w ∧ i' = i ∧ alerts = ["Todo title cannot be empty"]) ∨
     (edited ≠ "" ∧ todo !! "title" = Some (JStr edited) ∧ w' = w ∧
      i' = TodoItem.setIsEditing false i ∧ alerts = []) ∨
     (edited ≠ "" ∧ todo !! "title" ≠ Some (JStr edited) ∧ unpadded edited ∧
      ∃ payload r,
        onEdit (todo !! "id") payload w = (r, w') ∧
        payload !! "title" = Some (JStr edited) ∧
        (∀ k, k ≠ "title" → payload !! k = todo !! k) ∧
        TodoItem.isLoading i' = false ∧
        TodoItem.editTitle i' = TodoItem.editTitle i ∧
        match r with
        | Ok _ => TodoItem.isEditing i' = false ∧ alerts = []
        | Throw _ =>
            TodoItem.isEditing i' = TodoItem.isEditing i ∧
            alerts = ["Failed to edit todo. Please try again."]
        end)).
Proof.
  intros edited. unfold TodoItem.handleSave. fold edited.
  destruct (String.eqb_spec edited "") as [He | Hne].
  - eexists _, _, _. split; [reflexivity|]. left. by split_and!.
  - case_bool_decide as Ht.
    + eexists _, _, _. split; [reflexivity|]. right. left. by split_and!.
    + open_async.
      destruct (onEdit _ _ w) as [[[]|msg] w1] eqn:Hcb;
        eexists _, _, _; (split; [reflexivity|]); right; right;
        (split; [done|]); (split; [done|]);
        (split; [by destruct (trim_split (TodoItem.editTitle i))
                      as (? & ? & _ & ?)|]);
        eexists _, _; (split; [exact Hcb|]);
        (split; [apply lookup_insert_eq|]);
        (split; [intros k Hk; by apply lookup_insert_ne|]); done.
Qed.

(** X14.  The toggle payload has the opposite completion flag and every
    other property of the task; when the task's flag is a boolean, toggling
    the payload again gives the task back. *)
Theorem toggle_flips_completion (todo : jsobj) :
  truthy (TodoDetail.toggled todo !! "completed")
    = negb (truthy (todo !! "completed")) ∧
  (∀ k, k ≠ "completed" → TodoDetail.toggled todo !! k = todo !! k) ∧
  (∀ b, todo !! "completed" = Some (JBool b) →
        TodoDetail.toggled (TodoDetail.toggled todo) = todo).
Proof.
  unfold TodoDetail.toggled. split_and!.
  - by rewrite lookup_insert_eq.
  - intros k Hk. by rewrite lookup_insert_ne.
  - intros b Hb. rewrite lookup_insert_eq, insert_insert_eq, Hb. cbn.
    rewrite negb_involutive. by apply insert_id.
Qed.

End Handlers.

(** ** The error boundary *)

Section Boundary.

Import ErrorBoundary.

(** X15.  After any sequence of thrown errors and resets, the boundary shows
    its fallback exactly when the last thing that happened is a thrown error,
    and it then holds that error and its component stack; after a reset, as
    before anything happened, it is in its initial state and renders its
    children. *)
Theorem boundary_follows_last_event (events : list event) :
  match last events with
  | Some (Thrown err info) =>
      render (run events) = Fallback ∧
      error (run events) = Some err ∧ errorInfo (run events) = Some info
  | Some ResetPressed | None =>
      render (run events) = Children ∧ run events = initial
  end.
Proof.
  destruct events as [|e events] using rev_ind; [done|].
  rewrite last_snoc. unfold run. rewrite foldl_snoc. by destruct e.
Qed.

End Boundary.

(** ** More on the service *)

Section ServiceMore.

Import TodoService.
Context {R : RemoteApi} {J : Runtime}.
Implicit Types (w : World R) (m : gmap string jsobj) (id : Z).

Lemma searchTodos_eq w (query : string) :
  searchTodos query w =
  (match GET_todos R (remote w) with
   | Some apiTodos =>
       match filterE (titleIncludes query) (apiTodos ++ localTodosOf w) with
       | Ok found => Ok found
       | Throw _ => Throw "Failed to search todos"
       end
   | None => Throw "Failed to search todos"
   end, w).
Proof.
  unfold searchTodos. open_async. rewrite getAllTodos_eq.
  destruct (GET_todos R (remote w)) as [apiTodos|]; [|done].
  rewrite getLocalTodos_eq. by destruct (filterE _ _).
Qed.

Lemma filterE_Ok_titled (query : string) (l : list jsobj) :
  (∃ found, filterE (titleIncludes query) l = Ok found) ↔
  ∀ todo, todo ∈ l → titled todo.
Proof.
  split.
  - intros [found Hf] todo Hin.
    destruct (titleIncludes query todo) as [b|msg] eqn:Ht.
    + unfold titleIncludes in Ht. unfold titled.
      destruct (todo !! "title") as [[| | |s]|]; try done. by eexists.
    + destruct (proj2 (filterE_Throw_iff (titleIncludes query) l)) as [? ?];
        [by eauto | congruence].
  - intros Hl. apply filterE_titleIncludes_total, Forall_forall. apply Hl.
Qed.

(** X16.  A write that throws has left local storage exactly as it was, and
    throws the fixed message of its method, with the identifier for update
    and delete. *)
Theorem failed_write_leaves_storage w w' (msg : string) :
  (∀ todoData : jsobj, createTodo todoData w = (Throw msg, w') →
     msg = "Failed to create todo" ∧ storage w' = storage w) ∧
  (∀ id (todoData : jsobj), updateTodo id todoData w = (Throw msg, w') →
     msg = "Failed to update todo with ID " +:+ pretty id ∧
     storage w' = storage w) ∧
  (∀ id, deleteTodo id w = (Throw msg, w') →
     msg = "Failed to delete todo with ID " +:+ pretty id ∧
     storage w' = storage w).
Proof.
  split_and!.
  - intros todoData. rewrite createTodo_eq.
    destruct (POST_todos R _ _) as [[response|] s]; cbn zeta;
      [destruct (available (storage w))|]; by intros [= <- <-].
  - intros id todoData. rewrite updateTodo_eq.
    destruct (PUT_todo R _ _ _) as [[response|] s]; cbn zeta;
      [destruct (available (storage w));
         [destruct (items (storage w) !! todoKey id)|]|];
      by intros [= <- <-].
  - intros id. rewrite deleteTodo_eq.
    destruct (DELETE_todo R _ _) as [[[]|] s]; cbn zeta;
      [destruct (available (storage w))|]; by intros [= <- <-].
Qed.

(** X17.  Whatever its outcome, a write changes local storage at most under
    the key of its identifier (the clock time for a creation), and never
    whether the store is available nor the clock. *)
Theorem write_touches_one_key w w' (key : string) :
  (∀ (todoData : jsobj) r, createTodo todoData w = (r, w') →
     (key ≠ todoKey (clock w) →
        items (storage w') !! key = items (storage w) !! key) ∧
     available (storage w') = available (storage w) ∧ clock w' = clock w) ∧
  (∀ id (todoData : jsobj) r, updateTodo id todoData w = (r, w') →
     (key ≠ todoKey id →
        items (storage w') !! key = items (storage w) !! key) ∧
     available (storage w') = available (storage w) ∧ clock w' = clock w) ∧
  (∀ id r, deleteTodo id w = (r, w') →
     (key ≠ todoKey id →
        items (storage w') !! key = items (storage w) !! key) ∧
     available (storage w') = available (storage w) ∧ clock w' = clock w).
Proof.
  split_and!.
  - intros todoData r. rewrite createTodo_eq.
    destruct (POST_todos R _ _) as [[response|] s]; cbn zeta;
      [destruct (available (storage w)) eqn:Hav|]; intros [= <- <-]; cbn;
      try done.
    split; [|done]. intros Hkey. by apply lookup_insert_ne.
  - intros id todoData r. rewrite updateTodo_eq.
    destruct (PUT_todo R _ _ _) as [[response|] s]; cbn zeta;
      [destruct (available (storage w)) eqn:Hav;
         [destruct (items (storage w) !! todoKey id)|]|];
      intros [= <- <-]; cbn; try done.
    split; [|done]. intros Hkey. by apply lookup_insert_ne.
  - intros id r. rewrite deleteTodo_eq.
    destruct (DELETE_todo R _ _) as [[[]|] s]; cbn zeta;
      [destruct (available (storage w)) eqn:Hav|]; intros [= <- <-]; cbn;
      try done.
    split; [|done]. intros Hkey. by apply lookup_delete_ne.
Qed.

(** X18.  Two creations that read the same clock time share one key: the
    second replaces what the first stored.  After both, local storage is what
    it was before the first with the second task under that key, and, local
    storage holding its tasks under the keys of their identifiers, the first
    task is no longer among the local tasks unless the two are equal. *)
Theorem same_time_creation_overwrites w w1 w1' w2
    (first second created created' : jsobj) :
  createTodo first w = (Ok created, w1) →
  storage w1' = storage w1 → clock w1' = clock w →
  createTodo second w1' = (Ok created', w2) →
  items (storage w2) = <[todoKey (clock w) := created']> (items (storage w)) ∧
  (stored_by_id (items (storage w)) → created ≠ created' →
     created' ∈ localTodosOf w2 ∧ created ∉ localTodosOf w2).
Proof.
  intros H1 Hst Hclock H2.
  rewrite createTodo_eq in H1.
  destruct (POST_todos R _ (remote w)) as [[response|] s]; [|done].
  cbn zeta in H1. destruct (available (storage w)) eqn:Hav; [|done].
  assert (created !! "id" = Some (JNum (clock w))) as Hid.
  { injection H1 as <- _. unfold localTodoOf.
    rewrite lookup_insert_ne by done. apply lookup_insert_eq. }
  assert (storage w1 = {| items := <[todoKey (clock w) := created]> (items (storage w));
                          available := true |}) as Hst1.
  { injection H1 as <- <-. cbn. by rewrite Hav. }
  clear H1. rewrite Hst1 in Hst.
  rewrite createTodo_eq in H2.
  destruct (POST_todos R _ (remote w1')) as [[response'|] s']; [|done].
  cbn zeta in H2. rewrite Hst, Hclock in H2. cbn in H2.
  assert (created' !! "id" = Some (JNum (clock w))) as Hid'.
  { injection H2 as <- _. unfold localTodoOf.
    rewrite lookup_insert_ne by done. apply lookup_insert_eq. }
  assert (storage w2 = {| items := <[todoKey (clock w) := created']> (items (storage w));
                          available := true |}) as Hst2.
  { injection H2 as <- <-. cbn. rewrite Hst. cbn. by rewrite insert_insert_eq. }
  clear H2. rewrite Hst2. cbn. split; [done|].
  intros Hm Hne. unfold localTodosOf. rewrite Hst2. cbn. split.
  - apply elem_of_localValues. exists (todoKey (clock w)).
    split; [apply todoKey_prefix | apply lookup_insert_eq].
  - intros (key & Hp & Hk)%elem_of_localValues.
    pose proof (stored_by_id_insert _ (clock w) _ Hm Hid') as Hm'.
    destruct (stored_by_id_lookup _ _ _ Hm' Hk Hp) as (i & Hi & ->).
    rewrite Hid in Hi. injection Hi as <-.
    rewrite lookup_insert_eq in Hk. by injection Hk as <-.
Qed.

(** X19.  Deleting an identifier that local storage does not hold succeeds,
    the remote deletion being accepted, and leaves local storage as it is;
    so a second deletion of the same identifier changes nothing more. *)
Theorem delete_absent_changes_nothing w id (s : server R) :
  DELETE_todo R id (remote w) = (Some (), s) →
  available (storage w) = true →
  ∃ w1,
    deleteTodo id w = (Ok {["success" := JBool true]}, w1) ∧
    (items (storage w) !! todoKey id = None → storage w1 = storage w) ∧
    (∀ w1' r w2, storage w1' = storage w1 → deleteTodo id w1' = (r, w2) →
       storage w2 = storage w1).
Proof.
  intros Hdel Hav. rewrite deleteTodo_eq, Hdel. cbn zeta. rewrite Hav.
  eexists. split; [done|]. cbn. split.
  - intros Hnone. destruct (storage w) as [m a]. cbn in *.
    f_equal. by apply delete_id.
  - intros w1' r w2 Hst. rewrite deleteTodo_eq.
    destruct (DELETE_todo R _ (remote w1')) as [[[]|] s']; cbn zeta;
      rewrite ?Hst; cbn; rewrite ?Hav; intros [= _ <-]; cbn; rewrite ?Hst; cbn;
      by rewrite ?delete_delete_eq, Hav.
Qed.

(** X20.  Updating a locally stored task twice with the same payload is the
    same as updating it once: the second update returns the same merged task
    and leaves local storage as the first left it. *)
Theorem update_twice_is_once w w1 w1' w2 id (todoData updated updated' : jsobj) :
  is_Some (items (storage w) !! todoKey id) →
  updateTodo id todoData w = (Ok updated, w1) →
  storage w1' = storage w1 →
  updateTodo id todoData w1' = (Ok updated', w2) →
  updated' = updated ∧ storage w2 = storage w1.
Proof.
  intros [localTodo Hl] H1 Hst H2.
  rewrite updateTodo_eq in H1.
  destruct (PUT_todo R _ _ (remote w)) as [[response|] s]; [|done].
  cbn zeta in H1. destruct (available (storage w)) eqn:Hav; [|done].
  rewrite Hl in H1. injection H1 as <- <-.
  rewrite updateTodo_eq in H2.
  destruct (PUT_todo R _ _ (remote w1')) as [[response'|] s']; [|done].
  cbn zeta in H2. rewrite Hst in H2. cbn in H2.
  rewrite Hav, lookup_insert_eq in H2. injection H2 as <- <-.
  assert (spread (spread localTodo todoData) todoData = spread localTodo todoData)
    as Hidem.
  { unfold spread. by rewrite (assoc_L (∪)), (idemp_L (∪)). }
  split; [done|]. cbn. rewrite Hst. cbn. by rewrite Hidem, insert_insert_eq.
Qed.

(** X21.  An update of a locally stored task is seen by the next fetch-all:
    the merged task it returns is in the collection, each of its properties
    being the payload's when the payload has it and the stored one
    otherwise; and when local storage holds its tasks under the keys of
    their identifiers and the payload does not change the identifier, it is
    the only local task with that identifier. *)
Theorem local_update_reaches_fetch_all w w' id
    (todoData localTodo updated : jsobj) (apiTodos : list jsobj) :
  items (storage w) !! todoKey id = Some localTodo →
  updateTodo id todoData w = (Ok updated, w') →
  GET_todos R (remote w') = Some apiTodos →
  ∃ merged,
    queryFn w' = (Ok merged, w') ∧ updated ∈ merged ∧
    (∀ k, updated !! k =
          match todoData !! k with Some v => Some v | None => localTodo !! k end) ∧
    (stored_by_id (items (storage w)) →
     todoData !! "id" = None ∨ todoData !! "id" = Some (JNum id) →
     withId id (localTodosOf w') = [updated]).
Proof.
  intros Hl Hu Hget.
  pose proof Hu as Hu'. rewrite updateTodo_eq in Hu'.
  destruct (PUT_todo R _ _ (remote w)) as [[response|] s]; [|done].
  cbn zeta in Hu'. destruct (available (storage w)) eqn:Hav; [|done].
  rewrite Hl in Hu'. injection Hu' as <- <-.
  rewrite queryFn_eq, Hget. eexists. split; [done|].
  assert (spread localTodo todoData ∈
          localTodosOf (with_items (<[todoKey id := spread localTodo todoData]>
                                      (items (storage w))) (with_remote s w)))
    as Hin.
  { unfold localTodosOf. cbn. rewrite Hav. apply elem_of_localValues.
    exists (todoKey id). split; [apply todoKey_prefix | apply lookup_insert_eq]. }
  split_and!.
  - apply elem_of_app. by right.
  - apply spread_lookup.
  - intros Hm Hid.
    pose proof (updateTodo_stored_by_id _ _ _ _ _ Hm Hid Hu) as Hm'.
    apply withId_NoDup; [|done|].
    + unfold localTodosOf. cbn. rewrite Hav. by apply local_ids_NoDup.
    + rewrite spread_lookup.
      destruct (stored_by_id_lookup _ _ _ Hm Hl (todoKey_prefix id))
        as (i & Hi & <-%todoKey_inj).
      by destruct Hid as [-> | ->].
Qed.

(** X22.  [searchTodos] leaves the world as it is and either returns a list
    or throws [Failed to search todos]; it returns a list exactly when the
    remote read answers and every task of the merged collection has a string
    for a title.  A failing local store does not make it fail. *)
Theorem search_succeeds_iff w (query : string) :
  (searchTodos query w = (Throw "Failed to search todos", w) ∨
   ∃ found, searchTodos query w = (Ok found, w)) ∧
  ((∃ found, searchTodos query w = (Ok found, w)) ↔
   ∃ apiTodos, GET_todos R (remote w) = Some apiTodos ∧
               ∀ todo, todo ∈ apiTodos ++ localTodosOf w → titled todo) ∧
  (available (storage w) = false → localTodosOf w = []).
Proof.
  rewrite searchTodos_eq. split_and!.
  - destruct (GET_todos R (remote w)) as [apiTodos|]; [|by left].
    destruct (filterE _ _) as [found|]; [right; by eexists | by left].
  - destruct (GET_todos R (remote w)) as [apiTodos|].
    + pose proof (filterE_Ok_titled query (apiTodos ++ localTodosOf w)) as Ht.
      destruct (filterE _ _) as [found|msg] eqn:Hf; split.
      * intros _. exists apiTodos. split; [done|]. apply Ht. by eexists.
      * intros _. by eexists.
      * by intros [? [=]].
      * intros (api & [= <-] & Hall). apply Ht in Hall as [? [=]].
    + split; [by intros [? [=]] | by intros (? & [=] & _)].
  - intros Hav. unfold localTodosOf. by rewrite Hav.
Qed.

(** X23.  For a search string with a character that is not white space the
    service and the list view search alike: [searchTodos] returns a list
    exactly when fetch-all returns a collection on which the view's filter,
    with that search string and the status [all], yields that list. *)
Theorem search_agrees_with_view w (query : string) (found : list jsobj) :
  trim query ≠ "" →
  searchTodos query w = (Ok found, w) ↔
  ∃ merged, queryFn w = (Ok merged, w) ∧
            TodoList.filteredTodos merged query "all" = Ok found.
Proof.
  intros Hq%nonempty_true. rewrite searchTodos_eq, queryFn_eq.
  unfold TodoList.filteredTodos. rewrite Hq.
  destruct (GET_todos R (remote w)) as [apiTodos|]; split.
  - destruct (filterE _ _) as [f|] eqn:Hf; [|done]. intros [= <-].
    eexists. split; [done|]. by rewrite Hf.
  - intros (merged & [= <-] & Hv).
    destruct (filterE _ _) as [f|]; [|done]. cbn in Hv. by injection Hv as <-.
  - done.
  - by intros (? & [=] & _).
Qed.

Lemma includes_empty (s : string) : includes s "" = true.
Proof. by destruct s. Qed.

Lemma filterE_all {A : Type} (p : A → result bool) (l : list A) :
  (∀ x, x ∈ l → p x = Ok true) → filterE p l = Ok l.
Proof.
  induction l as [|y l IH]; intros Hl; [done|]. cbn [filterE].
  rewrite (Hl y) by left. cbn. rewrite IH; [done|].
  intros x Hx. apply Hl. by right.
Qed.

(** X24.  With the empty search string [searchTodos] returns the whole
    merged collection, as fetch-all gives it, provided every task has a
    string for a title. *)
Theorem search_everything w (merged : list jsobj) :
  queryFn w = (Ok merged, w) →
  (∀ todo, todo ∈ merged → titled todo) →
  searchTodos "" w = (Ok merged, w).
Proof.
  rewrite searchTodos_eq, queryFn_eq.
  destruct (GET_todos R (remote w)) as [apiTodos|]; [|done].
  intros [= <-] Ht. rewrite filterE_all; [done|].
  intros todo [s Hs]%Ht. unfold titleIncludes. rewrite Hs.
  by rewrite toLowerCase_empty, includes_empty.
Qed.

(** X25.  Fetch-one never looks at local storage: in two worlds with the
    same server it has the same outcome.  So a task that was just created
    and stored locally is not found by fetch-one when the remote API does
    not serve its identifier: the call throws
    [Failed to fetch todo with ID <id>]. *)
Theorem fetch_one_ignores_local_storage w w' (todoData created : jsobj) :
  (∀ id w1 w2, remote w1 = remote w2 →
     (getTodoById id w1).1 = (getTodoById id w2).1) ∧
  (createTodo todoData w = (Ok created, w') →
   GET_todo R (clock w) (remote w') = None →
   items (storage w') !! todoKey (clock w) = Some created ∧
   getTodoById (clock w) w' =
     (Throw ("Failed to fetch todo with ID " +:+ pretty (clock w)), w')).
Proof.
  split.
  - intros id w1 w2 Hr. rewrite !getTodoById_eq. cbn. by rewrite Hr.
  - intros Hc Hget. rewrite getTodoById_eq, Hget. split; [|done].
    rewrite createTodo_eq in Hc.
    destruct (POST_todos R _ _) as [[response|] s]; [|done].
    cbn zeta in Hc. destruct (available (storage w)); [|done].
    injection Hc as <- <-. cbn. apply lookup_insert_eq.
Qed.

End ServiceMore.

(** ** From the link of an item to the detail view *)

Section DetailLink.

Local Open Scope Z_scope.

Lemma digitOf_pretty_N_char (d : N) :
  (d < 10)%N → digitOf (pretty_N_char d) = Some (Z.of_N d).
Proof.
  intros Hd.
  assert (d = 0 ∨ d = 1 ∨ d = 2 ∨ d = 3 ∨ d = 4 ∨ d = 5 ∨ d = 6 ∨ d = 7
          ∨ d = 8 ∨ d = 9)%N as Hcases by lia.
  repeat destruct Hcases as [-> | Hcases]; try subst d; reflexivity.
Qed.

Lemma pretty_N_go_append (x : N) (s : string) :
  pretty_N_go x s = pretty_N_go x "" +:+ s.
Proof.
  revert s. induction (N.lt_wf_0 x) as [x _ IH]; intros s.
  destruct (decide (x = 0)%N) as [-> | Hx]; [done|].
  rewrite !(pretty_N_go_step x) by lia.
  rewrite IH by (apply N.div_lt; lia).
  rewrite (IH (x `div` 10)%N ltac:(apply N.div_lt; lia) (String _ "")).
  by rewrite append_assoc.
Qed.

Lemma decimal_append (s t : string) : decimal (s +:+ t) = decimal s && decimal t.
Proof.
  induction s as [|c s IH]; [done|]. rewrite append_cons. cbn [decimal].
  destruct (digitOf c) as [d|]; [|done]. by rewrite IH, andb_assoc.
Qed.

Lemma parseDigits_append (s t : string) (acc : option Z) :
  decimal s = true →
  parseDigits 10 (s +:+ t) acc = parseDigits 10 t (parseDigits 10 s acc).
Proof.
  revert acc. induction s as [|c s IH]; intros acc Hs; [done|].
  rewrite append_cons. cbn [parseDigits decimal] in *.
  destruct (digitOf c) as [d|]; [|done].
  apply andb_true_iff in Hs as [-> Hs]. by apply IH.
Qed.

Lemma pretty_N_go_digits (x : N) :
  decimal (pretty_N_go x "") = true ∧
  ((0 < x)%N → parseDigits 10 (pretty_N_go x "") None = Some (Z.of_N x) ∧
               pretty_N_go x "" ≠ "").
Proof.
  induction (N.lt_wf_0 x) as [x _ IH].
  destruct (decide (x = 0)%N) as [-> | Hx]; [split; [done | lia]|].
  rewrite pretty_N_go_step, pretty_N_go_append by lia.
  destruct (IH (x `div` 10)%N) as [Hdec Hparse]; [apply N.div_lt; lia|].
  pose proof (N.div_mod x 10 ltac:(lia)) as Hdm.
  pose proof (N.mod_lt x 10 ltac:(lia)) as Hlt.
  pose proof (digitOf_pretty_N_char (x `mod` 10) Hlt) as Hd.
  set (q := (x `div` 10)%N) in *. set (r := (x `mod` 10)%N) in *.
  assert ((Z.of_N r <? 10) = true) as Hr by (apply Z.ltb_lt; lia).
  split.
  - rewrite decimal_append, Hdec. cbn [decimal andb]. by rewrite Hd, Hr.
  - intros _. split; [|by destruct (pretty_N_go q "")].
    rewrite parseDigits_append by done. cbn [parseDigits]. rewrite Hd, Hr.
    f_equal. destruct (decide (q = 0)%N) as [H0 | H0].
    + rewrite H0, pretty_N_go_0 in *. cbn. lia.
    + destruct Hparse as [-> _]; [lia|]. cbn. lia.
Qed.

(** A non-empty string of decimal digits is read whole, in radix 10. *)
Lemma parseInt_decimal (s : string) :
  decimal s = true → s ≠ "" →
  parseInt s = parseDigits 10 s None ∧
  parseInt ("-" +:+ s) = Z.opp <$> parseDigits 10 s None.
Proof.
  intros Hs Hne. destruct s as [|c s]; [done|]. cbn [decimal] in Hs.
  destruct (digitOf c) as [d|] eqn:Hc; [|done].
  assert (trimStart (String c s) = String c s ∧ c ≠ "-"%char ∧ c ≠ "+"%char ∧
          (c = "0"%char → ∀ r, s ≠ String "x" r ∧ s ≠ String "X" r)) as Hfirst.
  { split_and!; try (intros ->; by vm_compute in Hc).
    - unfold trimStart. cbn [String.length strip].
      assert (stripOne whiteSpace (String c s) = None) as ->; [|done].
      destruct c as [[] [] [] [] [] [] [] []];
        try (by vm_compute in Hc); by vm_compute.
    - intros _ r. apply andb_true_iff in Hs as [_ Hs].
      split; intros ->; by vm_compute in Hs. }
  destruct Hfirst as (Hsp & Hminus & Hplus & Hhex).
  assert (∀ sign : Z,
            (let '(radix, s0) :=
               match String c s with
               | String "0" (String "x" r) | String "0" (String "X" r) => (16, r)
               | _ => (10, String c s)
               end in
             (λ n, sign * n) <$> parseDigits radix s0 None)
            = (λ n, sign * n) <$> parseDigits 10 (String c s) None) as Hradix.
  { intros sign. destruct (decide (c = "0"%char)) as [-> | H0].
    - destruct s as [|c' r]; [done|]. destruct (Hhex eq_refl r) as [Hx HX].
      destruct (decide (c' = "x"%char)) as [-> | ?]; [done|].
      destruct (decide (c' = "X"%char)) as [-> | ?]; [done|].
      by destruct c' as [[] [] [] [] [] [] [] []].
    - by destruct c as [[] [] [] [] [] [] [] []]. }
  split.
  - unfold parseInt. rewrite Hsp. cbn zeta.
    assert ((match String c s with
             | String "-" r => (-1, r)
             | String "+" r => (1, r)
             | _ => (1, String c s)
             end) = (1, String c s)) as ->.
    { by destruct c as [[] [] [] [] [] [] [] []]. }
    rewrite Hradix. by destruct (parseDigits 10 (String c s) None) as [[]|].
  - unfold parseInt. rewrite append_cons, append_nil_l.
    assert (trimStart (String "-" (String c s)) = String "-" (String c s)) as ->.
    { unfold trimStart. cbn [String.length strip].
      assert (stripOne whiteSpace (String "-" (String c s)) = None) as ->; [|done].
      by vm_compute. }
    cbn zeta. cbn match.
    rewrite Hradix. by destruct (parseDigits 10 (String c s) None) as [[]|].
Qed.

Lemma parseInt_pretty (id : Z) : parseInt (pretty id) = Some id.
Proof.
  destruct id as [|p|p]; [done|..].
  - change (pretty (Z.pos p)) with (pretty_N_go (N.pos p) "").
    destruct (pretty_N_go_digits (N.pos p)) as [Hdec Hp].
    destruct Hp as [Hp Hne]; [lia|].
    by rewrite (proj1 (parseInt_decimal _ Hdec Hne)), Hp.
  - change (pretty (Z.neg p)) with ("-" +:+ pretty_N_go (N.pos p) "").
    destruct (pretty_N_go_digits (N.pos p)) as [Hdec Hp].
    destruct Hp as [Hp Hne]; [lia|].
    by rewrite (proj2 (parseInt_decimal _ Hdec Hne)), Hp.
Qed.

(** X26.  The link of a list item carries its task's identifier to the
    detail view unharmed: for a task whose identifier is an integer (one
    that JavaScript holds exactly) the detail view reads from the text of the
    link the same identifier, and so asks the service for that task; for a
    task without an identifier it reads no number. *)
Theorem link_carries_identifier (todo : jsobj) :
  (∀ id, todo !! "id" = Some (JNum id) → - 2 ^ 53 < id < 2 ^ 53 →
     TodoItem.detailLink todo = "/todo/" +:+ pretty id ∧
     TodoDetail.queryId (TodoItem.linkParam todo) = Some id) ∧
  (todo !! "id" = None → TodoDetail.queryId (TodoItem.linkParam todo) = None).
Proof.
  unfold TodoItem.detailLink, TodoItem.linkParam, TodoDetail.queryId. split.
  - intros id -> _. cbn [templateText]. split; [done|]. apply parseInt_pretty.
  - by intros ->.
Qed.

End DetailLink.

(** ** The creation form and its button *)

Section FormButton.

Import TodoService.
Context {R : RemoteApi}.

(** X27.  The submit button and the validation disagree on titles of length
    one or two (in UTF-16 code units): with such a trimmed title, and nothing
    loading, the
    button is enabled, and submitting only sets the error that asks for three
    characters, without running the callback. *)
Theorem short_title_is_refused_on_submit
    (onCreateTodo : jsobj → Async R unit) (f : CreateTodo.formState)
    (w : World R) :
  (0 < strLength (trim (CreateTodo.title f)) < 3)%nat →
  CreateTodo.submitDisabled false f = false ∧
  CreateTodo.handleSubmit onCreateTodo f w =
    (Ok (CreateTodo.setError "Todo title must be at least 3 characters long" f), w).
Proof.
  intros [Hpos Hshort]. unfold CreateTodo.submitDisabled, CreateTodo.handleSubmit.
  remember (trim (CreateTodo.title f)) as t eqn:Ht.
  destruct t as [|c t]; [cbn in Hpos; lia|]. split.
  - cbn [orb]. apply Nat.eqb_neq. lia.
  - cbn [String.eqb].
    destruct (Nat.ltb_spec (strLength (String c t)) 3); [done | lia].
Qed.

End FormButton.

(** ** The further properties on the sample data *)

Section OnSampleMore.

Import TodoService Sample.
#[local] Existing Instance Sample.runtime.

Local Abbreviation W := (World Simulated.api).


Lemma filtered_keeps_order_sample :
  TodoList.filteredTodos [t1; t2; t4] "QUI" "pending" = Ok [t2] ∧
  sublist [t2] [t1; t2; t4].
Proof.
  split; [reflexivity|].
  exact (filtered_keeps_order [t1; t2; t4] "QUI" "pending" [t2] eq_refl).
Defined.

Lemma status_filters_split_sample :
  TodoList.filteredTodos [t1; t2; t4] "" "all" = Ok [t1; t2; t4] ∧
  ∃ completed pending,
    TodoList.filteredTodos [t1; t2; t4] "" "completed" = Ok completed ∧
    TodoList.filteredTodos [t1; t2; t4] "" "pending" = Ok pending ∧
    completed ++ pending ≡ₚ [t1; t2; t4] ∧
    (length completed + length pending = 3)%nat.
Proof.
  split; [reflexivity|].
  exact (status_filters_split [t1; t2; t4] "" [t1; t2; t4] eq_refl).
Defined.


Lemma page_lengths_sample :
  TodoList.totalPages (replicate 23 t1) = 3%Z ∧
  Z.of_nat (length (TodoList.currentTodos (replicate 23 t1) 3)) = 3%Z.
Proof.
  split; [reflexivity|].
  destruct (page_lengths (replicate 23 t1) 3) as [Hlen _].
  - split; by vm_compute.
  - exact Hlen.
Defined.

Lemma page_outside_is_empty_sample :
  TodoList.totalPages (replicate 23 t1) = 3%Z ∧
  TodoList.currentTodos (replicate 23 t1) 4 = [].
Proof.
  split; [reflexivity|].
  apply (page_outside_is_empty (replicate 23 t1) 4). left. by vm_compute.
Defined.

Lemma pagination_clicks_stay_in_range_sample :
  TodoList.clickTarget 20 4 (TodoList.AtIndex 2) = Some 3%Z ∧ (1 ≤ 3 ≤ 20)%Z.
Proof.
  split; [reflexivity|].
  apply (pagination_clicks_stay_in_range 20 4 (TodoList.AtIndex 2) 3);
    [split; by vm_compute | reflexivity].
Defined.

Lemma ellipsis_marks_two_or_more_sample :
  TodoList.pageItemAt 20 4 1 = TodoList.NoItem ∧
  TodoList.pageItemAt 20 5 1 = TodoList.Ellipsis.
Proof.
  split.
  - destruct (ellipsis_marks_two_or_more 20 4) as (_ & _ & Hfour & _);
      [split; by vm_compute|].
    exact (Hfour eq_refl).
  - reflexivity.
Defined.

Lemma filter_change_shows_first_page_sample :
  TodoList.currentPage
    (TodoList.setSearchQuery "milk" (TodoList.handlePageChange 3 TodoList.initialView))
  = 1%Z.
Proof.
  destruct (filter_change_shows_first_page
              (TodoList.handlePageChange 3 TodoList.initialView)
              (TodoList.setSearchQuery "milk"
                 (TodoList.handlePageChange 3 TodoList.initialView))
              "milk" (or_introl eq_refl)) as [Hchanged _].
  destruct Hchanged as [Hpage _]; [left; by vm_compute|]. exact Hpage.
Defined.

Lemma same_time_creation_overwrites_sample :
  let w : W := world up ∅ true now in
  let first := createTodo {["title" := JStr "Buy milk"]} w in
  let second := createTodo {["title" := JStr "Call home"]} first.2 in
  ∃ created created',
    first.1 = Ok created ∧ second.1 = Ok created' ∧
    items (storage second.2) = {[todoKey now := created']}.
Proof.
  intros w first second.
  eexists _, _. split; [reflexivity|]. split; [reflexivity|].
  exact (proj1 (same_time_creation_overwrites w first.2 first.2 second.2
                  {["title" := JStr "Buy milk"]} {["title" := JStr "Call home"]}
                  _ _ eq_refl eq_refl eq_refl eq_refl)).
Defined.

Lemma delete_absent_changes_nothing_sample :
  let w : W := world up store1 true now in
  ∃ w1, deleteTodo 7 w = (Ok {["success" := JBool true]}, w1) ∧
        storage w1 = storage w.
Proof.
  intros w.
  destruct (delete_absent_changes_nothing w 7 up eq_refl eq_refl)
    as (w1 & Hd & Hsame & _).
  exists w1. split; [exact Hd | exact (Hsame eq_refl)].
Defined.

Lemma update_twice_is_once_sample :
  let w : W := world up store1 true now in
  let todoData : jsobj := {["completed" := JBool true]} in
  let once := updateTodo 1690000000000 todoData w in
  let twice := updateTodo 1690000000000 todoData once.2 in
  ∃ updated, once.1 = Ok updated ∧ twice.1 = Ok updated ∧
             storage twice.2 = storage once.2.
Proof.
  intros w todoData once twice.
  destruct (update_twice_is_once w once.2 once.2 twice.2 1690000000000 todoData
              (spread mine todoData) (spread mine todoData)
              (mk_is_Some _ _ eq_refl) eq_refl eq_refl eq_refl) as [_ Hst].
  exists (spread mine todoData). split; [reflexivity|]. split; [reflexivity|].
  exact Hst.
Defined.

Lemma local_update_reaches_fetch_all_sample :
  let w : W := world up store1 true now in
  let todoData : jsobj := {["completed" := JBool true]} in
  let once := updateTodo 1690000000000 todoData w in
  ∃ merged, queryFn once.2 = (Ok merged, once.2) ∧ spread mine todoData ∈ merged.
Proof.
  intros w todoData once.
  destruct (local_update_reaches_fetch_all w once.2 1690000000000 todoData mine
              (spread mine todoData) [t1; t2; t4] eq_refl eq_refl eq_refl)
    as (merged & Hq & Hin & _).
  exists merged. split; [exact Hq | exact Hin].
Defined.

Lemma search_agrees_with_view_sample :
  let w : W := world up store1 true now in
  trim "qui" ≠ "" ∧
  (searchTodos "qui" w = (Ok [t2], w) ↔
   ∃ merged, queryFn w = (Ok merged, w) ∧
             TodoList.filteredTodos merged "qui" "all" = Ok [t2]).
Proof.
  intros w.
  assert (trim "qui" ≠ "") as Hq by (by vm_compute).
  split; [exact Hq|]. exact (search_agrees_with_view w "qui" [t2] Hq).
Defined.

Lemma search_everything_sample :
  let w : W := world up store1 true now in
  searchTodos "" w = (Ok [t1; t2; t4; mine], w).
Proof.
  intros w. apply (search_everything w [t1; t2; t4; mine]); [reflexivity|].
  intros todo Hin.
  repeat (apply elem_of_cons in Hin as [-> | Hin]; [by eexists|]).
  by apply not_elem_of_nil in Hin.
Defined.

Lemma short_title_is_refused_on_submit_sample :
  let f := {| CreateTodo.isFormOpen := true; CreateTodo.title := " éé ";
              CreateTodo.error := "" |} in
  let w : W := world up ∅ true now in
  CreateTodo.submitDisabled false f = false ∧
  CreateTodo.handleSubmit (λ todoData, bind (createTodo todoData) (λ _, ret ())) f w
    = (Ok (CreateTodo.setError "Todo title must be at least 3 characters long" f), w).
Proof.
  intros f w. apply short_title_is_refused_on_submit. vm_compute. lia.
Defined.

End OnSampleMore.
